(** * The card animation scheduler of idea-execution/script.js

    The development embeds the animation system of the [Card] class
    ([animate], [update], [setHover], [flip], [reset], [slideOut],
    [slideIn], [setOpacity]) together with the three easing functions, and
    proves the properties of the scheduler stated in the specification.

    Numbers.  A JavaScript number is an IEEE 754 binary64 value.  The model
    is written once over an interface [Number] of the operations the source
    uses ([+ - * /], [Math.min], [<], [>=], literals) and has two instances:

    - [Float64]: Rocq's primitive binary64 floats, which compute what the
      engine computes (rounding, infinities, NaN);
    - [Exact]: exact rationals extended with the two infinities and NaN,
      in which rounding is not modelled but division by zero and NaN
      propagate as in IEEE 754.

    Structural properties of the scheduler are proved for every instance.
    Properties that depend on the laws of arithmetic are proved over
    [Exact]; what happens at duration 0 is proved over both; concrete runs
    are evaluated over [Float64].

    Closures.  An [onComplete] closure is represented by the list of card
    operations it performs (type [cmd], which has the operations that the
    closures of the program perform on a card); effects that leave the
    card (sounds, timers, counters of the game logic, other cards) are
    recorded as [EExtern] events.

    Observation.  Each animation object carries an identity [aid]
    (JavaScript object identity) and the card keeps a [log] of the slot
    writes made by [update] and of the callbacks it invoked.

    The game.  Around the cards, the development embeds the globals of the
    script and the functions that work on them: [createCards],
    [refillSets], [getNextSet], [handleCardClick], [applyBackgroundForSet],
    [introDropInNoBounce], the tilt of [onMouseMove] and the animation
    loop.  [Math.random] is a sequence fixed in advance, a timer is the
    description of its closure, and a colour of THREE is the term that
    built it.  Over these it proves where the animations of the card end,
    which invariants the card keeps, and how the queue of image sets, the
    click, the background and the loop behave. *)

From Stdlib Require Import ZArith QArith Qcanon List String Bool Lia.
From Stdlib Require Import Permutation DecimalString Qround Lqa Sorted.
From Stdlib Require Import Floats Uint63.
Import ListNotations.
Close Scope Qc_scope.
Close Scope Q_scope.
Open Scope nat_scope.

Set Warnings "-register-all".

(* ================================================================= *)
(** ** Numbers *)

Class Number : Type := {
  num : Type;
  lit : Q -> num;                 (* a numeric literal *)
  nadd : num -> num -> num;
  nsub : num -> num -> num;
  nmul : num -> num -> num;
  ndiv : num -> num -> num;
  nopp : num -> num;
  Math_min : num -> num -> num;
  nlt : num -> num -> bool;       (* a < b *)
  nge : num -> num -> bool        (* a >= b *)
}.

Declare Scope js_scope.
Delimit Scope js_scope with js.
Notation "a + b" := (nadd a b) : js_scope.
Notation "a - b" := (nsub a b) : js_scope.
Notation "a * b" := (nmul a b) : js_scope.
Notation "a / b" := (ndiv a b) : js_scope.
Notation "- a" := (nopp a) : js_scope.
Notation "a <? b" := (nlt a b) : js_scope.
Notation "a >=? b" := (nge a b) (at level 70, no associativity) : js_scope.

(** *** Binary64 *)

Module Float64.

Definition of_Z (z : Z) : float :=
  if (z <? 0)%Z then PrimFloat.opp (PrimFloat.of_uint63 (Uint63.of_Z (- z)))
  else PrimFloat.of_uint63 (Uint63.of_Z z).

(** A literal [p/q] with [p] and [q] below 2^53 denotes the double nearest
    to the quotient, which is what the correctly rounded division returns. *)
Definition literal (q : Q) : float :=
  PrimFloat.div (of_Z (Qnum q)) (of_Z (Zpos (Qden q))).

(** [Math.min]: NaN if an argument is NaN, and -0 is smaller than +0. *)
Definition min (a b : float) : float :=
  if PrimFloat.is_nan a || PrimFloat.is_nan b then PrimFloat.nan
  else if PrimFloat.ltb a b then a
  else if PrimFloat.ltb b a then b
  else if PrimFloat.get_sign a then a else b.

Definition number : Number := {|
  num := float;
  lit := literal;
  nadd := PrimFloat.add;
  nsub := PrimFloat.sub;
  nmul := PrimFloat.mul;
  ndiv := PrimFloat.div;
  nopp := PrimFloat.opp;
  Math_min := min;
  nlt := PrimFloat.ltb;
  nge := fun a b => PrimFloat.leb b a
|}.

End Float64.

(** *** Exact extended rationals *)

Module Exact.

Inductive xnum : Type :=
| Fin (q : Qc)
| PosInf
| NegInf
| NaN.

Definition sign (q : Qc) : comparison := (q ?= 0)%Qc.

Definition opp (a : xnum) : xnum :=
  match a with
  | Fin q => Fin (- q)%Qc
  | PosInf => NegInf
  | NegInf => PosInf
  | NaN => NaN
  end.

Definition add (a b : xnum) : xnum :=
  match a, b with
  | NaN, _ | _, NaN => NaN
  | Fin p, Fin q => Fin (p + q)%Qc
  | PosInf, NegInf | NegInf, PosInf => NaN
  | PosInf, _ | _, PosInf => PosInf
  | NegInf, _ | _, NegInf => NegInf
  end.

Definition sub (a b : xnum) : xnum := add a (opp b).

Definition scale_inf (i : xnum) (s : comparison) : xnum :=
  match s with
  | Gt => i
  | Lt => opp i
  | Eq => NaN
  end.

Definition mul (a b : xnum) : xnum :=
  match a, b with
  | NaN, _ | _, NaN => NaN
  | Fin p, Fin q => Fin (p * q)%Qc
  | Fin p, i => scale_inf i (sign p)
  | i, Fin q => scale_inf i (sign q)
  | PosInf, PosInf | NegInf, NegInf => PosInf
  | PosInf, NegInf | NegInf, PosInf => NegInf
  end.

Definition div (a b : xnum) : xnum :=
  match a, b with
  | NaN, _ | _, NaN => NaN
  | Fin p, Fin q =>
      match sign q with
      | Eq => scale_inf PosInf (sign p)      (* p / 0 *)
      | _ => Fin (p / q)%Qc
      end
  | Fin _, _ => Fin 0%Qc
  | i, Fin q =>
      match sign q with
      | Lt => opp i
      | _ => i
      end
  | _, _ => NaN                              (* infinity / infinity *)
  end.

Definition leb (a b : xnum) : bool :=
  match a, b with
  | NaN, _ | _, NaN => false
  | NegInf, _ | _, PosInf => true
  | Fin p, Fin q => match (p ?= q)%Qc with Gt => false | _ => true end
  | _, _ => false
  end.

Definition ltb (a b : xnum) : bool :=
  match a, b with
  | NaN, _ | _, NaN => false
  | Fin p, Fin q => match (p ?= q)%Qc with Lt => true | _ => false end
  | PosInf, _ | _, NegInf => false
  | _, _ => true
  end.

Definition min (a b : xnum) : xnum :=
  match a, b with
  | NaN, _ | _, NaN => NaN
  | _, _ => if ltb b a then b else a
  end.


Definition number : Number := {|
  num := xnum;
  lit := fun q => Fin (Q2Qc q);
  nadd := add;
  nsub := sub;
  nmul := mul;
  ndiv := div;
  nopp := opp;
  Math_min := min;
  nlt := ltb;
  nge := fun a b => leb b a
|}.

End Exact.

(* ================================================================= *)
(** ** Easing functions *)

Section Easing.
Context {N : Number}.
Open Scope js_scope.

(** [Math.pow] at a natural exponent, by repeated multiplication. *)
Fixpoint Math_pow (b : num) (e : nat) : num :=
  match e with
  | O => lit 1
  | S e' => b * Math_pow b e'
  end.

Definition easeOutCubic (t : num) : num :=
  lit 1 - Math_pow (lit 1 - t) 3.

Definition easeInOutCubic (t : num) : num :=
  if t <? lit (1 # 2) then lit 4 * t * t * t
  else lit 1 - Math_pow (lit (-2) * t + lit 2) 3 / lit 2.

Definition easeInCubic (t : num) : num := t * t * t.

(** The identity easing, called [linear] in the scenario of the
    specification; the source defines no function of that name. *)
Definition linear (t : num) : num := t.

End Easing.

(* ================================================================= *)
(** ** The card *)

Section Card.
Context {N : Number}.
Open Scope js_scope.
Open Scope string_scope.

Record vec2 : Type := { x2 : num; y2 : num }.
Record vec3 : Type := { x3 : num; y3 : num; z3 : num }.

(** The transform of the card's [THREE.Group]. *)
Record object3d : Type := { rotation : vec3; position : vec3; scale : vec3 }.

Record materials3 : Type := {
  frontOpacity : num; backOpacity : num; edgeOpacity : num
}.

(** What a completion closure of the program does to the card it closes
    over, operation by operation. *)
Inductive cmd : Type :=
| CSetSliding (b : bool)
    (* this.isSliding = b *)
| CAnimate (property : string) (from to duration : num)
           (easing : num -> num) (onComplete : option (list cmd))
    (* this.animate(property, from, to, duration, easing, onComplete) *)
| CSlideIn (onComplete : option (list cmd)) (zOffset : num)
    (* card.slideIn(onComplete, zOffset) *)
| CReset
    (* card.reset() *)
| CSetOpacity (value : num)
    (* card.setOpacity(value) *)
| CSetState (s : string)
    (* card.state = s *)
| CStageAtDropStart
    (* card.currentPosition.z = card.basePosition.z + CONFIG.Z_DROP_START;
       card.group.position.z = card.currentPosition.z *)
| CExtern (label : string).
    (* an effect outside the card *)

Definition callback : Type := list cmd.

Record animation : Type := {
  aid : nat;                       (* object identity *)
  property : string;
  from : num;
  to : num;
  duration : num;
  easing : num -> num;
  elapsed : num;
  onComplete : option callback;    (* undefined when absent *)
  isFlipAnimation : bool           (* undefined (falsy) unless set by flip *)
}.

(** What the card has observably done. *)
Inductive event : Type :=
| EWrite (id : nat) (p : string) (value : num)
    (* update wrote value into slot p for animation id *)
| ECall (id : nat)
    (* update invoked the onComplete of animation id *)
| EExtern (label : string).
    (* an effect outside the card *)

Record card : Type := {
  index : nat;
  state : string;
  isFlipped : bool;
  isHovered : bool;
  targetRotation : vec2;
  currentRotation : vec2;
  hoverTiltTarget : vec2;
  tiltOffset : vec2;
  baseRotationY : num;
  isSliding : bool;
  targetPosition : vec3;
  currentPosition : vec3;
  targetScale : num;
  currentScale : num;
  currentOpacity : num;
  basePosition : vec3;
  animations : list animation;
  group : object3d   (* THREE.Group: rotation, position, scale *);
  materials : option materials3   (* opacities of the front, back and edge materials, once createMesh has run *);
  nextId : nat   (* identity given to the next animation object *);
  log : list event   (* slot writes and callback invocations, oldest first *)
}.

Definition set_elapsed (v : num) (a : animation) : animation :=
  {| aid := aid a; property := property a; from := from a; to := to a;
     duration := duration a; easing := easing a; elapsed := v;
     onComplete := onComplete a; isFlipAnimation := isFlipAnimation a |}.

Definition set_state (v : string) (c : card) : card :=
  {| index := index c; state := v; isFlipped := isFlipped c;
     isHovered := isHovered c; targetRotation := targetRotation c;
     currentRotation := currentRotation c;
     hoverTiltTarget := hoverTiltTarget c; tiltOffset := tiltOffset c;
     baseRotationY := baseRotationY c; isSliding := isSliding c;
     targetPosition := targetPosition c;
     currentPosition := currentPosition c; targetScale := targetScale c;
     currentScale := currentScale c; currentOpacity := currentOpacity c;
     basePosition := basePosition c; animations := animations c;
     group := group c; materials := materials c; nextId := nextId c;
     log := log c |}.

Definition set_isFlipped (v : bool) (c : card) : card :=
  {| index := index c; state := state c; isFlipped := v;
     isHovered := isHovered c; targetRotation := targetRotation c;
     currentRotation := currentRotation c;
     hoverTiltTarget := hoverTiltTarget c; tiltOffset := tiltOffset c;
     baseRotationY := baseRotationY c; isSliding := isSliding c;
     targetPosition := targetPosition c;
     currentPosition := currentPosition c; targetScale := targetScale c;
     currentScale := currentScale c; currentOpacity := currentOpacity c;
     basePosition := basePosition c; animations := animations c;
     group := group c; materials := materials c; nextId := nextId c;
     log := log c |}.

Definition set_isHovered (v : bool) (c : card) : card :=
  {| index := index c; state := state c; isFlipped := isFlipped c;
     isHovered := v; targetRotation := targetRotation c;
     currentRotation := currentRotation c;
     hoverTiltTarget := hoverTiltTarget c; tiltOffset := tiltOffset c;
     baseRotationY := baseRotationY c; isSliding := isSliding c;
     targetPosition := targetPosition c;
     currentPosition := currentPosition c; targetScale := targetScale c;
     currentScale := currentScale c; currentOpacity := currentOpacity c;
     basePosition := basePosition c; animations := animations c;
     group := group c; materials := materials c; nextId := nextId c;
     log := log c |}.

Definition set_targetRotation (v : vec2) (c : card) : card :=
  {| index := index c; state := state c; isFlipped := isFlipped c;
     isHovered := isHovered c; targetRotation := v;
     currentRotation := currentRotation c;
     hoverTiltTarget := hoverTiltTarget c; tiltOffset := tiltOffset c;
     baseRotationY := baseRotationY c; isSliding := isSliding c;
     targetPosition := targetPosition c;
     currentPosition := currentPosition c; targetScale := targetScale c;
     currentScale := currentScale c; currentOpacity := currentOpacity c;
     basePosition := basePosition c; animations := animations c;
     group := group c; materials := materials c; nextId := nextId c;
     log := log c |}.

Definition set_currentRotation (v : vec2) (c : card) : card :=
  {| index := index c; state := state c; isFlipped := isFlipped c;
     isHovered := isHovered c; targetRotation := targetRotation c;
     currentRotation := v; hoverTiltTarget := hoverTiltTarget c;
     tiltOffset := tiltOffset c; baseRotationY := baseRotationY c;
     isSliding := isSliding c; targetPosition := targetPosition c;
     currentPosition := currentPosition c; targetScale := targetScale c;
     currentScale := currentScale c; currentOpacity := currentOpacity c;
     basePosition := basePosition c; animations := animations c;
     group := group c; materials := materials c; nextId := nextId c;
     log := log c |}.

Definition set_hoverTiltTarget (v : vec2) (c : card) : card :=
  {| index := index c; state := state c; isFlipped := isFlipped c;
     isHovered := isHovered c; targetRotation := targetRotation c;
     currentRotation := currentRotation c; hoverTiltTarget := v;
     tiltOffset := tiltOffset c; baseRotationY := baseRotationY c;
     isSliding := isSliding c; targetPosition := targetPosition c;
     currentPosition := currentPosition c; targetScale := targetScale c;
     currentScale := currentScale c; currentOpacity := currentOpacity c;
     basePosition := basePosition c; animations := animations c;
     group := group c; materials := materials c; nextId := nextId c;
     log := log c |}.

Definition set_tiltOffset (v : vec2) (c : card) : card :=
  {| index := index c; state := state c; isFlipped := isFlipped c;
     isHovered := isHovered c; targetRotation := targetRotation c;
     currentRotation := currentRotation c;
     hoverTiltTarget := hoverTiltTarget c; tiltOffset := v;
     baseRotationY := baseRotationY c; isSliding := isSliding c;
     targetPosition := targetPosition c;
     currentPosition := currentPosition c; targetScale := targetScale c;
     currentScale := currentScale c; currentOpacity := currentOpacity c;
     basePosition := basePosition c; animations := animations c;
     group := group c; materials := materials c; nextId := nextId c;
     log := log c |}.

Definition set_baseRotationY (v : num) (c : card) : card :=
  {| index := index c; state := state c; isFlipped := isFlipped c;
     isHovered := isHovered c; targetRotation := targetRotation c;
     currentRotation := currentRotation c;
     hoverTiltTarget := hoverTiltTarget c; tiltOffset := tiltOffset c;
     baseRotationY := v; isSliding := isSliding c;
     targetPosition := targetPosition c;
     currentPosition := currentPosition c; targetScale := targetScale c;
     currentScale := currentScale c; currentOpacity := currentOpacity c;
     basePosition := basePosition c; animations := animations c;
     group := group c; materials := materials c; nextId := nextId c;
     log := log c |}.

Definition set_isSliding (v : bool) (c : card) : card :=
  {| index := index c; state := state c; isFlipped := isFlipped c;
     isHovered := isHovered c; targetRotation := targetRotation c;
     currentRotation := currentRotation c;
     hoverTiltTarget := hoverTiltTarget c; tiltOffset := tiltOffset c;
     baseRotationY := baseRotationY c; isSliding := v;
     targetPosition := targetPosition c;
     currentPosition := currentPosition c; targetScale := targetScale c;
     currentScale := currentScale c; currentOpacity := currentOpacity c;
     basePosition := basePosition c; animations := animations c;
     group := group c; materials := materials c; nextId := nextId c;
     log := log c |}.

Definition set_targetPosition (v : vec3) (c : card) : card :=
  {| index := index c; state := state c; isFlipped := isFlipped c;
     isHovered := isHovered c; targetRotation := targetRotation c;
     currentRotation := currentRotation c;
     hoverTiltTarget := hoverTiltTarget c; tiltOffset := tiltOffset c;
     baseRotationY := baseRotationY c; isSliding := isSliding c;
     targetPosition := v; currentPosition := currentPosition c;
     targetScale := targetScale c; currentScale := currentScale c;
     currentOpacity := currentOpacity c; basePosition := basePosition c;
     animations := animations c; group := group c; materials := materials c;
     nextId := nextId c; log := log c |}.

Definition set_currentPosition (v : vec3) (c : card) : card :=
  {| index := index c; state := state c; isFlipped := isFlipped c;
     isHovered := isHovered c; targetRotation := targetRotation c;
     currentRotation := currentRotation c;
     hoverTiltTarget := hoverTiltTarget c; tiltOffset := tiltOffset c;
     baseRotationY := baseRotationY c; isSliding := isSliding c;
     targetPosition := targetPosition c; currentPosition := v;
     targetScale := targetScale c; currentScale := currentScale c;
     currentOpacity := currentOpacity c; basePosition := basePosition c;
     animations := animations c; group := group c; materials := materials c;
     nextId := nextId c; log := log c |}.

Definition set_targetScale (v : num) (c : card) : card :=
  {| index := index c; state := state c; isFlipped := isFlipped c;
     isHovered := isHovered c; targetRotation := targetRotation c;
     currentRotation := currentRotation c;
     hoverTiltTarget := hoverTiltTarget c; tiltOffset := tiltOffset c;
     baseRotationY := baseRotationY c; isSliding := isSliding c;
     targetPosition := targetPosition c;
     currentPosition := currentPosition c; targetScale := v;
     currentScale := currentScale c; currentOpacity := currentOpacity c;
     basePosition := basePosition c; animations := animations c;
     group := group c; materials := materials c; nextId := nextId c;
     log := log c |}.

Definition set_currentScale (v : num) (c : card) : card :=
  {| index := index c; state := state c; isFlipped := isFlipped c;
     isHovered := isHovered c; targetRotation := targetRotation c;
     currentRotation := currentRotation c;
     hoverTiltTarget := hoverTiltTarget c; tiltOffset := tiltOffset c;
     baseRotationY := baseRotationY c; isSliding := isSliding c;
     targetPosition := targetPosition c;
     currentPosition := currentPosition c; targetScale := targetScale c;
     currentScale := v; currentOpacity := currentOpacity c;
     basePosition := basePosition c; animations := animations c;
     group := group c; materials := materials c; nextId := nextId c;
     log := log c |}.

Definition set_currentOpacity (v : num) (c : card) : card :=
  {| index := index c; state := state c; isFlipped := isFlipped c;
     isHovered := isHovered c; targetRotation := targetRotation c;
     currentRotation := currentRotation c;
     hoverTiltTarget := hoverTiltTarget c; tiltOffset := tiltOffset c;
     baseRotationY := baseRotationY c; isSliding := isSliding c;
     targetPosition := targetPosition c;
     currentPosition := currentPosition c; targetScale := targetScale c;
     currentScale := currentScale c; currentOpacity := v;
     basePosition := basePosition c; animations := animations c;
     group := group c; materials := materials c; nextId := nextId c;
     log := log c |}.

Definition set_basePosition (v : vec3) (c : card) : card :=
  {| index := index c; state := state c; isFlipped := isFlipped c;
     isHovered := isHovered c; targetRotation := targetRotation c;
     currentRotation := currentRotation c;
     hoverTiltTarget := hoverTiltTarget c; tiltOffset := tiltOffset c;
     baseRotationY := baseRotationY c; isSliding := isSliding c;
     targetPosition := targetPosition c;
     currentPosition := currentPosition c; targetScale := targetScale c;
     currentScale := currentScale c; currentOpacity := currentOpacity c;
     basePosition := v; animations := animations c; group := group c;
     materials := materials c; nextId := nextId c; log := log c |}.

Definition set_animations (v : list animation) (c : card) : card :=
  {| index := index c; state := state c; isFlipped := isFlipped c;
     isHovered := isHovered c; targetRotation := targetRotation c;
     currentRotation := currentRotation c;
     hoverTiltTarget := hoverTiltTarget c; tiltOffset := tiltOffset c;
     baseRotationY := baseRotationY c; isSliding := isSliding c;
     targetPosition := targetPosition c;
     currentPosition := currentPosition c; targetScale := targetScale c;
     currentScale := currentScale c; currentOpacity := currentOpacity c;
     basePosition := basePosition c; animations := v; group := group c;
     materials := materials c; nextId := nextId c; log := log c |}.

Definition set_group (v : object3d) (c : card) : card :=
  {| index := index c; state := state c; isFlipped := isFlipped c;
     isHovered := isHovered c; targetRotation := targetRotation c;
     currentRotation := currentRotation c;
     hoverTiltTarget := hoverTiltTarget c; tiltOffset := tiltOffset c;
     baseRotationY := baseRotationY c; isSliding := isSliding c;
     targetPosition := targetPosition c;
     currentPosition := currentPosition c; targetScale := targetScale c;
     currentScale := currentScale c; currentOpacity := currentOpacity c;
     basePosition := basePosition c; animations := animations c; group := v;
     materials := materials c; nextId := nextId c; log := log c |}.

Definition set_materials (v : option materials3) (c : card) : card :=
  {| index := index c; state := state c; isFlipped := isFlipped c;
     isHovered := isHovered c; targetRotation := targetRotation c;
     currentRotation := currentRotation c;
     hoverTiltTarget := hoverTiltTarget c; tiltOffset := tiltOffset c;
     baseRotationY := baseRotationY c; isSliding := isSliding c;
     targetPosition := targetPosition c;
     currentPosition := currentPosition c; targetScale := targetScale c;
     currentScale := currentScale c; currentOpacity := currentOpacity c;
     basePosition := basePosition c; animations := animations c;
     group := group c; materials := v; nextId := nextId c; log := log c |}.

Definition set_nextId (v : nat) (c : card) : card :=
  {| index := index c; state := state c; isFlipped := isFlipped c;
     isHovered := isHovered c; targetRotation := targetRotation c;
     currentRotation := currentRotation c;
     hoverTiltTarget := hoverTiltTarget c; tiltOffset := tiltOffset c;
     baseRotationY := baseRotationY c; isSliding := isSliding c;
     targetPosition := targetPosition c;
     currentPosition := currentPosition c; targetScale := targetScale c;
     currentScale := currentScale c; currentOpacity := currentOpacity c;
     basePosition := basePosition c; animations := animations c;
     group := group c; materials := materials c; nextId := v; log := log c |}.

Definition set_log (v : list event) (c : card) : card :=
  {| index := index c; state := state c; isFlipped := isFlipped c;
     isHovered := isHovered c; targetRotation := targetRotation c;
     currentRotation := currentRotation c;
     hoverTiltTarget := hoverTiltTarget c; tiltOffset := tiltOffset c;
     baseRotationY := baseRotationY c; isSliding := isSliding c;
     targetPosition := targetPosition c;
     currentPosition := currentPosition c; targetScale := targetScale c;
     currentScale := currentScale c; currentOpacity := currentOpacity c;
     basePosition := basePosition c; animations := animations c;
     group := group c; materials := materials c; nextId := nextId c;
     log := v |}.

(** *** CONFIG *)

Definition FLIP_DURATION : num := lit (4 # 10).
Definition SLIDE_DURATION : num := lit (6 # 10).
Definition Z_DROP_START : num := lit 3.
Definition Z_DROP_DURATION : num := lit (5 # 10).
Definition Z_DROP_BOUNCE : num := lit (15 # 100).
Definition GRID_COLS : nat := 4.
Definition MAX_TILT : num := lit (2 # 10).
Definition HOVER_SCALE : num := lit (105 # 100).
Definition TILT_SMOOTHING : num := lit (15 # 100).

(** [Math.PI], the double 0x1.921fb54442d18p+1. *)
Definition Math_PI : num := lit (884279719003555 # 281474976710656).

(** *** Construction *)

Definition vec2_0 : vec2 := {| x2 := lit 0; y2 := lit 0 |}.
Definition vec3_0 : vec3 := {| x3 := lit 0; y3 := lit 0; z3 := lit 0 |}.
Definition vec3_1 : vec3 := {| x3 := lit 1; y3 := lit 1; z3 := lit 1 |}.

(** [new Card(index)]: the fields set by the constructor, a fresh group
    and no mesh yet. *)
Definition new_Card (i : nat) : card :=
  {| index := i; state := "available"; isFlipped := false; isHovered := false;
     targetRotation := vec2_0; currentRotation := vec2_0;
     hoverTiltTarget := vec2_0; tiltOffset := vec2_0;
     baseRotationY := lit 0; isSliding := false;
     targetPosition := vec3_0; currentPosition := vec3_0;
     targetScale := lit 1; currentScale := lit 1; currentOpacity := lit 0;
     basePosition := vec3_0; animations := [];
     group := {| rotation := vec3_0; position := vec3_0; scale := vec3_1 |};
     materials := None; nextId := 0; log := [] |}.

Definition push_log (e : event) (c : card) : card :=
  set_log (log c ++ [e]) c.

(** *** createMesh, setOpacity, setPosition *)

(** [createMesh] as far as the animation system sees it: the three
    materials exist from now on, with the opacity 1 that a new material
    has; textures and geometry are outside the model. *)
Definition createMesh (c : card) : card :=
  push_log (EExtern "createMesh")
    (set_materials
       (Some {| frontOpacity := lit 1; backOpacity := lit 1;
                edgeOpacity := lit 1 |}) c).

Definition setOpacity (value : num) (c : card) : card :=
  let c := set_currentOpacity value c in
  match materials c with
  | Some _ =>
      set_materials
        (Some {| frontOpacity := value; backOpacity := value;
                 edgeOpacity := value |}) c
  | None => c
  end.

Definition setPosition (x y z : num) (c : card) : card :=
  let v := {| x3 := x; y3 := y; z3 := z |} in
  let c := set_basePosition v c in
  let c := set_targetPosition v c in
  let c := set_currentPosition v c in
  set_group {| rotation := rotation (group c); position := v;
               scale := scale (group c) |} c.

(** *** animate *)

Definition enqueue (a : animation) (c : card) : card :=
  set_nextId (S (nextId c)) (set_animations (animations c ++ [a]) c).

Definition animate (property : string) (from to duration : num)
    (easing : num -> num) (onComplete : option callback) (c : card) : card :=
  enqueue {| aid := nextId c; property := property; from := from; to := to;
             duration := duration; easing := easing; elapsed := lit 0;
             onComplete := onComplete; isFlipAnimation := false |} c.

(** *** The property slots *)

Definition recognized (p : string) : bool :=
  (p =? "rotationY") || (p =? "rotationX") || (p =? "positionX")
  || (p =? "positionY") || (p =? "positionZ") || (p =? "scale")
  || (p =? "opacity").

(** The if-else chain of [update]; a name outside the chain falls through. *)
Definition write_slot (p : string) (value : num) (c : card) : card :=
  if p =? "rotationY" then
    set_currentRotation {| x2 := x2 (currentRotation c); y2 := value |} c
  else if p =? "rotationX" then
    set_currentRotation {| x2 := value; y2 := y2 (currentRotation c) |} c
  else if p =? "positionX" then
    set_currentPosition {| x3 := value; y3 := y3 (currentPosition c);
                           z3 := z3 (currentPosition c) |} c
  else if p =? "positionY" then
    set_currentPosition {| x3 := x3 (currentPosition c); y3 := value;
                           z3 := z3 (currentPosition c) |} c
  else if p =? "positionZ" then
    set_currentPosition {| x3 := x3 (currentPosition c);
                           y3 := y3 (currentPosition c); z3 := value |} c
  else if p =? "scale" then set_currentScale value c
  else if p =? "opacity" then setOpacity value c
  else c.

(** The current value of a slot. *)
Definition slot (p : string) (c : card) : option num :=
  if p =? "rotationY" then Some (y2 (currentRotation c))
  else if p =? "rotationX" then Some (x2 (currentRotation c))
  else if p =? "positionX" then Some (x3 (currentPosition c))
  else if p =? "positionY" then Some (y3 (currentPosition c))
  else if p =? "positionZ" then Some (z3 (currentPosition c))
  else if p =? "scale" then Some (currentScale c)
  else if p =? "opacity" then Some (currentOpacity c)
  else None.

(** The seven slots together. *)
Definition slots (c : card) : vec2 * vec3 * num * num :=
  (currentRotation c, currentPosition c, currentScale c, currentOpacity c).

(** *** slideIn, slideOut, flip, reset *)

(** The closure [() => { this.isSliding = false; if (onComplete)
    onComplete(); }] of [slideOut] and of the second leg of [slideIn]. *)
Definition onAnimComplete (onComplete : option callback) : callback :=
  CSetSliding false :: match onComplete with Some k => k | None => [] end.

Definition slideIn (onComplete : option callback) (zOffset : num)
    (c : card) : card :=
  let c := set_isSliding true c in
  let c := push_log (EExtern "SoundManager.playRandomPlace") c in
  let finalTargetZ := z3 (basePosition c) in
  let startZ := finalTargetZ + zOffset + Z_DROP_START in
  let overshootZ := finalTargetZ + zOffset - Z_DROP_BOUNCE in
  let p := {| x3 := x3 (basePosition c); y3 := y3 (basePosition c);
              z3 := startZ |} in
  let c := set_currentPosition p c in
  let c := set_group {| rotation := rotation (group c); position := p;
                        scale := scale (group c) |} c in
  let c := setOpacity (lit 0) c in
  let c := animate "opacity" (lit 0) (lit 1) Z_DROP_DURATION easeOutCubic
             None c in
  animate "positionZ" startZ overshootZ (Z_DROP_DURATION * lit (8 # 10))
    easeOutCubic
    (Some [CAnimate "positionZ" overshootZ finalTargetZ
             (Z_DROP_DURATION * lit (2 # 10)) easeInOutCubic
             (Some (onAnimComplete onComplete))]) c.

Definition slideOut (onComplete : option callback) (c : card) : card :=
  let c := set_isSliding true c in
  let c := push_log (EExtern "SoundManager.playSlide") c in
  let col := Nat.modulo (index c) GRID_COLS in
  let row := Nat.div (index c) GRID_COLS in
  let onAnimComplete := Some (onAnimComplete onComplete) in
  if Nat.eqb col 0 then
    animate "positionX" (x3 (currentPosition c))
      (x3 (basePosition c) - lit 15) SLIDE_DURATION easeInCubic
      onAnimComplete c
  else if Nat.eqb col (GRID_COLS - 1) then
    animate "positionX" (x3 (currentPosition c))
      (x3 (basePosition c) + lit 15) SLIDE_DURATION easeInCubic
      onAnimComplete c
  else if Nat.eqb row 0 then
    animate "positionY" (y3 (currentPosition c))
      (y3 (basePosition c) + lit 15) SLIDE_DURATION easeInCubic
      onAnimComplete c
  else
    animate "positionY" (y3 (currentPosition c))
      (y3 (basePosition c) - lit 15) SLIDE_DURATION easeInCubic
      onAnimComplete c.

Definition flip (onComplete : option callback) (c : card) : card :=
  let c := set_isFlipped true c in
  let c := set_tiltOffset vec2_0 c in
  let c := push_log (EExtern "SoundManager.playRandomTurnOver") c in
  let c := enqueue {| aid := nextId c; property := "rotationY";
                      from := y2 (currentRotation c); to := Math_PI;
                      duration := FLIP_DURATION; easing := easeInOutCubic;
                      elapsed := lit 0; onComplete := onComplete;
                      isFlipAnimation := true |} c in
  let c := animate "positionZ" (z3 (currentPosition c)) (lit 0)
             FLIP_DURATION easeInOutCubic None c in
  animate "rotationX" (x2 (currentRotation c)) (lit 0) FLIP_DURATION
    easeInOutCubic None c.

Definition reset (c : card) : card :=
  let c := set_isFlipped false c in
  let c := set_isHovered false c in
  let c := set_isSliding false c in
  let c := set_currentRotation vec2_0 c in
  let c := set_targetRotation vec2_0 c in
  let c := set_hoverTiltTarget vec2_0 c in
  let c := set_tiltOffset vec2_0 c in
  let c := set_baseRotationY (lit 0) c in
  let c := set_currentScale (lit 1) c in
  let c := set_targetScale (lit 1) c in
  let c := setOpacity (lit 0) c in
  let c := set_currentPosition (basePosition c) c in
  let c := set_targetPosition (basePosition c) c in
  let c := set_group {| rotation := vec3_0; position := basePosition c;
                        scale := vec3_1 |} c in
  let c := set_animations [] c in
  push_log (EExtern "clearFaceTexture") c.

(** *** Running a completion closure *)

Definition run_cmd (c : card) (k : cmd) : card :=
  match k with
  | CSetSliding b => set_isSliding b c
  | CAnimate p f t d e k' => animate p f t d e k' c
  | CSlideIn k' zOffset => slideIn k' zOffset c
  | CReset => reset c
  | CSetOpacity value => setOpacity value c
  | CSetState s => set_state s c
  | CStageAtDropStart =>
      let z := z3 (basePosition c) + Z_DROP_START in
      let c :=
        set_currentPosition {| x3 := x3 (currentPosition c);
                               y3 := y3 (currentPosition c); z3 := z |} c in
      set_group {| rotation := rotation (group c);
                   position := {| x3 := x3 (position (group c));
                                  y3 := y3 (position (group c)); z3 := z |};
                   scale := scale (group c) |} c
  | CExtern label => push_log (EExtern label) c
  end.

Definition run_callback (k : callback) (c : card) : card :=
  fold_left run_cmd k c.

(** *** update *)

Definition advance (deltaTime : num) (anim : animation) : animation :=
  set_elapsed (elapsed anim + deltaTime) anim.

(** [progress] as computed by [update] from the stored [elapsed]. *)
Definition progress_of (anim : animation) : num :=
  Math_min (elapsed anim / duration anim) (lit 1).

(** [from + (to - from) * easedProgress], the right-hand side of each
    branch of the chain. *)
Definition interpolate (from to easedProgress : num) : num :=
  from + (to - from) * easedProgress.

Definition value_of (anim : animation) : num :=
  interpolate (from anim) (to anim) (easing anim (progress_of anim)).

Definition completes (anim : animation) : bool :=
  progress_of anim >=? lit 1.

(** The body of the filter callback on one animation whose [elapsed] has
    just been increased: the slot write. *)
Definition apply_animation (anim : animation) (c : card) : card :=
  let c' := write_slot (property anim) (value_of anim) c in
  if recognized (property anim)
  then push_log (EWrite (aid anim) (property anim) (value_of anim)) c'
  else c'.

(** [this.animations.filter(...)]: the card after the writes, the
    animations kept, and [completedCallbacks] in the order pushed. *)
Fixpoint filter_pass (deltaTime : num) (queue : list animation) (c : card)
  : card * list animation * list (nat * callback) :=
  match queue with
  | [] => (c, [], [])
  | anim :: rest =>
      let anim := advance deltaTime anim in
      let c := apply_animation anim c in
      let '(c', kept, completedCallbacks) := filter_pass deltaTime rest c in
      if completes anim then
        (c', kept,
         match onComplete anim with
         | Some k => (aid anim, k) :: completedCallbacks
         | None => completedCallbacks
         end)
      else (c', anim :: kept, completedCallbacks)
  end.

Definition invoke (c : card) (cb : nat * callback) : card :=
  run_callback (snd cb) (push_log (ECall (fst cb)) c).

Definition smooth_tilt (target : vec2) (c : card) : card :=
  let smoothing := TILT_SMOOTHING in
  let t := tiltOffset c in
  set_tiltOffset
    {| x2 := x2 t + (x2 target - x2 t) * smoothing;
       y2 := y2 t + (y2 target - y2 t) * smoothing |} c.

Definition apply_transforms (c : card) : card :=
  set_group
    {| rotation := {| x3 := x2 (currentRotation c) + x2 (tiltOffset c);
                      y3 := y2 (currentRotation c) + y2 (tiltOffset c);
                      z3 := z3 (rotation (group c)) |};
       position := currentPosition c;
       scale := {| x3 := currentScale c; y3 := currentScale c;
                   z3 := currentScale c |} |} c.

Definition hasFlipAnim (c : card) : bool :=
  existsb isFlipAnimation (animations c).

(** The hover tilt interpolation at the end of [update]. *)
Definition hover_tilt (c : card) : card :=
  if isHovered c && negb (hasFlipAnim c) then
    smooth_tilt (hoverTiltTarget c) c
  else if negb (isHovered c) then smooth_tilt vec2_0 c
  else c.

Definition update (deltaTime : num) (c : card) : card :=
  let '(c, kept, completedCallbacks) :=
    filter_pass deltaTime (animations c) c in
  let c := set_animations kept c in
  let c := fold_left invoke completedCallbacks c in
  apply_transforms (hover_tilt c).

(** *** setHover, updateHoverTilt *)

Definition setHover (hovered : bool) (c : card) : card :=
  if hasFlipAnim c || isSliding c then c
  else
    let c := set_isHovered hovered c in
    let c :=
      set_animations
        (filter (fun a => (negb (property a =? "scale")
                           && negb (property a =? "positionZ"))
                          || isFlipAnimation a)
                (animations c)) c in
    if hovered then
      let c := push_log (EExtern "SoundManager.playRandomHover") c in
      let c := animate "scale" (currentScale c) HOVER_SCALE (lit (2 # 10))
                 easeOutCubic None c in
      animate "positionZ" (z3 (currentPosition c)) (lit (3 # 10))
        (lit (2 # 10)) easeOutCubic None c
    else
      let c := set_hoverTiltTarget vec2_0 c in
      let c := animate "scale" (currentScale c) (lit 1) (lit (2 # 10))
                 easeOutCubic None c in
      animate "positionZ" (z3 (currentPosition c)) (lit 0) (lit (2 # 10))
        easeOutCubic None c.

Definition updateHoverTilt (localX localY : num) (c : card) : card :=
  if negb (isHovered c) then c
  else
    set_hoverTiltTarget
      {| x2 := localY * MAX_TILT;
         y2 := - localX * MAX_TILT |} c.

(** Successive frames. *)
Definition run_updates (deltas : list num) (c : card) : card :=
  fold_left (fun c dt => update dt c) deltas c.

End Card.

(* ================================================================= *)
(** ** Vocabulary of the statements

    The definitions below are not part of the program: they name the
    events, the stages of [update] and the shapes of the queue that the
    theorems talk about. *)

Section Scheduler.
Context {N : Number}.
Open Scope js_scope.
Open Scope string_scope.

(** The events a card has logged since an earlier state of it. *)
Definition new_events (c c' : card) : list event :=
  skipn (List.length (log c)) (log c').

Definition is_write (e : event) : bool :=
  match e with EWrite _ _ _ => true | _ => false end.

Definition is_extern (e : event) : bool :=
  match e with EExtern _ => true | _ => false end.

(** The animation an event is about. *)
Definition event_id (e : event) : option nat :=
  match e with
  | EWrite i _ _ | ECall i => Some i
  | EExtern _ => None
  end.

(** The callbacks invoked, by animation, in log order. *)
Definition calls (evs : list event) : list nat :=
  flat_map (fun e => match e with ECall i => [i] | _ => [] end) evs.

Definition ids (q : list animation) : list nat := map aid q.

(** The parts of one filter pass. *)
Definition write_events (anim : animation) : list event :=
  if recognized (property anim)
  then [EWrite (aid anim) (property anim) (value_of anim)]
  else [].

Definition callback_entry (anim : animation) : list (nat * callback) :=
  match onComplete anim with
  | Some k => [(aid anim, k)]
  | None => []
  end.

Definition advanced (deltaTime : num) (q : list animation) : list animation :=
  map (advance deltaTime) q.

Definition written (deltaTime : num) (q : list animation) (c : card) : card :=
  fold_left (fun c a => apply_animation a c) (advanced deltaTime q) c.

Definition kept_of (deltaTime : num) (q : list animation) : list animation :=
  filter (fun a => negb (completes a)) (advanced deltaTime q).

Definition callbacks_of (deltaTime : num) (q : list animation)
  : list (nat * callback) :=
  flat_map callback_entry (filter completes (advanced deltaTime q)).

(** Object identities are unique and older than [nextId]. *)
Definition wf (c : card) : Prop :=
  NoDup (ids (animations c))
  /\ Forall (fun a => aid a < nextId c) (animations c).



End Scheduler.

(** *** Stages of [update], events of closures, queue shapes *)

Section Vocabulary.
Context {N : Number}.

(** The events a closure adds to the log: only effects outside the card. *)
Definition cmd_events (k : cmd) : list event :=
  match k with
  | CSlideIn _ _ => [EExtern "SoundManager.playRandomPlace"]
  | CReset => [EExtern "clearFaceTexture"]
  | CExtern label => [EExtern label]
  | _ => []
  end.

Definition call_events (cb : nat * callback) : list event :=
  ECall (fst cb) :: flat_map cmd_events (snd cb).

(** The state in which the callbacks of [update] start to run. *)
Definition after_pass (dt : num) (c : card) : card :=
  set_animations (kept_of dt (animations c)) (written dt (animations c) c).

Definition after_callbacks (dt : num) (c : card) : card :=
  fold_left invoke (callbacks_of dt (animations c)) (after_pass dt c).

Definition has_callback (a : animation) : bool :=
  match onComplete a with Some _ => true | None => false end.

(** The animations [setHover] leaves in the queue. *)
Definition survives_hover (a : animation) : bool :=
  (negb (String.eqb (property a) "scale")
   && negb (String.eqb (property a) "positionZ"))
  || isFlipAnimation a.

(** [grown n0 old c]: the queue of [c] is [old], or nothing after a
    reset, followed by animations created since [nextId] was [n0], none of
    them advanced. *)
Definition grown (n0 : nat) (old : list animation) (c : card) : Prop :=
  n0 <= nextId c
  /\ exists new,
       (animations c = old ++ new \/ animations c = new)
       /\ NoDup (ids new)
       /\ Forall (fun a => (n0 <= aid a < nextId c) /\ elapsed a = lit 0) new.


(** The calls a program can make on a card. *)
Inductive call : Type :=
| CreateMesh
| Animate (property : string) (from to duration : num)
          (easing : num -> num) (onComplete : option callback)
| Update (deltaTime : num)
| SetHover (isHovered : bool)
| UpdateHoverTilt (localX localY : num)
| Flip (onComplete : option callback)
| Reset
| SlideOut (onComplete : option callback)
| SlideIn (onComplete : option callback) (zOffset : num)
| SetOpacity (value : num)
| SetPosition (x y z : num).

Definition perform (c : card) (m : call) : card :=
  match m with
  | CreateMesh => createMesh c
  | Animate p f t d e k => animate p f t d e k c
  | Update dt => update dt c
  | SetHover b => setHover b c
  | UpdateHoverTilt x y => updateHoverTilt x y c
  | Flip k => flip k c
  | Reset => reset c
  | SlideOut k => slideOut k c
  | SlideIn k z => slideIn k z c
  | SetOpacity v => setOpacity v c
  | SetPosition x y z => setPosition x y z c
  end.

(** The cards a program can build: a new card and calls on it. *)
Definition reachable (c : card) : Prop :=
  exists i calls, c = fold_left perform calls (new_Card i).

End Vocabulary.


(** What a number system has to compute for a duration of 0: a positive
    frame time divided by 0 is clamped to 1, and [1 >= 1]. *)
Definition clamps_division_by_zero (N : Number) : Prop :=
  (forall dt : num,
     nlt (lit 0) dt = true ->
     Math_min (ndiv (nadd (lit 0) dt) (lit 0)) (lit 1) = lit 1)
  /\ nge (lit 1 : num) (lit 1) = true.

(** An animation of duration 0 that has not been advanced completes in the
    first update with a positive frame time: its progress is 1, it leaves
    the queue, its closure is invoked once, and the value written to its
    slot is the terminal one. *)
Definition completes_at_once (N : Number) : Prop :=
  forall (dt : num) (c : card) (a : animation),
    wf c -> In a (animations c) ->
    duration a = lit 0 -> elapsed a = lit 0 -> nlt (lit 0) dt = true ->
    progress_of (advance dt a) = lit 1
    /\ ~ In (aid a) (ids (animations (update dt c)))
    /\ count_occ Nat.eq_dec (calls (new_events c (update dt c))) (aid a)
       = (if has_callback a then 1 else 0)
    /\ (recognized (property a) = true ->
        In (EWrite (aid a) (property a)
              (interpolate (from a) (to a) (easing a (lit 1))))
           (new_events c (update dt c))).


(** *** Orders and sums over the exact numbers *)

Section ExactVocabulary.
Local Existing Instance Exact.number.
Import Exact.
Local Open Scope Qc_scope.



End ExactVocabulary.

(** *** Cards used in the concrete runs *)

Section Cards64.
Local Existing Instance Float64.number.
Open Scope js_scope.


Definition fade_with (ez : num -> num) : card :=
  animate "opacity" (lit 0) (lit 1) (lit (1 # 2)) ez
    (Some [CExtern "onComplete"]) (new_Card 0).



Definition instant_fade : card :=
  animate "opacity" (lit 0) (lit 1) (lit 0) easeOutCubic
    (Some [CExtern "onComplete"]) (new_Card 0).

Definition instant_anim : animation :=
  {| aid := 0; property := "opacity"; from := lit 0; to := lit 1;
     duration := lit 0; easing := easeOutCubic; elapsed := lit 0;
     onComplete := Some [CExtern "onComplete"]; isFlipAnimation := false |}.

(** A card that has just been dealt: [slideIn] with no closure. *)
Definition dealt_card : card := slideIn None (lit 0) (new_Card 0).




Definition fade_anim : animation :=
  {| aid := 0; property := "opacity"; from := lit 0; to := lit 1;
     duration := lit (1 # 2); easing := linear; elapsed := lit 0;
     onComplete := Some [CExtern "onComplete"]; isFlipAnimation := false |}.

Definition flipping_card : card := flip None (new_Card 0).

Definition scaling_card : card :=
  animate "rotationX" (lit 0) (lit 1) (lit 1) linear None
    (animate "scale" (lit 1) (lit 2) (lit 1) linear None (new_Card 0)).

End Cards64.

Section CardsExact.
Local Existing Instance Exact.number.
Import Exact.
Local Open Scope Qc_scope.

Local Abbreviation fin q := (Fin q : @num Exact.number) (only parsing).

Definition half : Qc := Q2Qc (1 # 2).



End CardsExact.

(* ================================================================= *)
(** ** The game around the cards

    The global state that [createCards], [refillSets], [getNextSet],
    [handleCardClick], [applyBackgroundForSet] and the animation loop
    read and write.  [Math.random()] is a sequence of numbers fixed in
    advance, of which [drawn] have been consumed; the product with the
    bound and [Math.floor] are taken exactly.  A [setTimeout] registers
    its closure, named by what it will do, with its delay.  A colour of
    THREE is the term that built it; calls into the browser and the
    renderer are recorded in [outside]. *)

Section Game.
Context {N : Number}.
Open Scope js_scope.
Open Scope string_scope.

(** The closures [handleCardClick] hands to [setTimeout]. *)
Inductive task : Type :=
| TFlipExecution (setNum : option Z) (executionIndex : nat)
    (* () => { applyBackgroundForSet(setNum); execCard.flip(); } *)
| TAnimateOutAndIn (idxA idxB : nat).
    (* () => { animateOutAndIn(index, executionIndex); } *)

(** A [THREE.Color], by the calls that made it. *)
Inductive color : Type :=
| Color (spec : string)               (* new THREE.Color(spec), set(spec) *)
| Lerp (a b : color) (alpha : num)    (* a.clone().lerp(b, alpha) *)
| AddScalar (a : color) (s : num).    (* a.clone().addScalar(s) *)

(** [backgroundTransition]; its field [duration] is [duration'] here,
    [duration] being the field of an animation. *)
Record transition : Type := {
  isActive : bool;
  startColor : color;
  targetColor : color;
  startTime : num;
  duration' : num
}.

Record world : Type := {
  cards : list card;
  availableSets : list Z;
  lastShownSet : option Z          (* a number, or undefined *);
  slotStates : list string;
  showIntro : bool;
  introCard : option card          (* a card, or null; its index -1,
                                      which [update] does not read,
                                      is not represented *);
  backgroundTransition : transition;
  scene_background : color         (* scene.background *);
  lastTime : num;
  timers : list (num * task)       (* setTimeout calls, oldest first *);
  entropy : nat -> Q               (* Math.random(), call by call *);
  drawn : nat                      (* calls of Math.random() so far *);
  outside : list string            (* calls into browser and renderer *)
}.

Definition set_cards (v : list card) (w : world) : world :=
  {| cards := v; availableSets := availableSets w;
     lastShownSet := lastShownSet w; slotStates := slotStates w;
     showIntro := showIntro w; introCard := introCard w;
     backgroundTransition := backgroundTransition w;
     scene_background := scene_background w; lastTime := lastTime w;
     timers := timers w; entropy := entropy w; drawn := drawn w;
     outside := outside w |}.

Definition set_availableSets (v : list Z) (w : world) : world :=
  {| cards := cards w; availableSets := v; lastShownSet := lastShownSet w;
     slotStates := slotStates w; showIntro := showIntro w;
     introCard := introCard w;
     backgroundTransition := backgroundTransition w;
     scene_background := scene_background w; lastTime := lastTime w;
     timers := timers w; entropy := entropy w; drawn := drawn w;
     outside := outside w |}.

Definition set_lastShownSet (v : option Z) (w : world) : world :=
  {| cards := cards w; availableSets := availableSets w; lastShownSet := v;
     slotStates := slotStates w; showIntro := showIntro w;
     introCard := introCard w;
     backgroundTransition := backgroundTransition w;
     scene_background := scene_background w; lastTime := lastTime w;
     timers := timers w; entropy := entropy w; drawn := drawn w;
     outside := outside w |}.

Definition set_slotStates (v : list string) (w : world) : world :=
  {| cards := cards w; availableSets := availableSets w;
     lastShownSet := lastShownSet w; slotStates := v;
     showIntro := showIntro w; introCard := introCard w;
     backgroundTransition := backgroundTransition w;
     scene_background := scene_background w; lastTime := lastTime w;
     timers := timers w; entropy := entropy w; drawn := drawn w;
     outside := outside w |}.





Definition set_timers (v : list (num * task)) (w : world) : world :=
  {| cards := cards w; availableSets := availableSets w;
     lastShownSet := lastShownSet w; slotStates := slotStates w;
     showIntro := showIntro w; introCard := introCard w;
     backgroundTransition := backgroundTransition w;
     scene_background := scene_background w; lastTime := lastTime w;
     timers := v; entropy := entropy w; drawn := drawn w;
     outside := outside w |}.

Definition set_drawn (v : nat) (w : world) : world :=
  {| cards := cards w; availableSets := availableSets w;
     lastShownSet := lastShownSet w; slotStates := slotStates w;
     showIntro := showIntro w; introCard := introCard w;
     backgroundTransition := backgroundTransition w;
     scene_background := scene_background w; lastTime := lastTime w;
     timers := timers w; entropy := entropy w; drawn := v;
     outside := outside w |}.

Definition set_outside (v : list string) (w : world) : world :=
  {| cards := cards w; availableSets := availableSets w;
     lastShownSet := lastShownSet w; slotStates := slotStates w;
     showIntro := showIntro w; introCard := introCard w;
     backgroundTransition := backgroundTransition w;
     scene_background := scene_background w; lastTime := lastTime w;
     timers := timers w; entropy := entropy w; drawn := drawn w;
     outside := v |}.

(** *** CONFIG, continued *)

Definition TOTAL_IMAGE_SETS : nat := 6.
Definition STAGGER_DELAY : num := lit (3 # 10).
Definition REVEAL_STAY_TIME : num := lit 1.
Definition CARD_WIDTH : num := lit (15 # 10).
Definition CARD_HEIGHT : num :=
  lit (15 # 10) * (lit (1669 # 100) / lit (986 # 100)).
Definition GRID_ROWS : nat := 2.
Definition CARD_GAP : num := lit (4 # 10).
Definition BACKGROUND_TRANSITION_DURATION : num := lit (3 # 10).

(** A count as a number. *)
Definition to_number (n : nat) : num := lit (inject_Z (Z.of_nat n)).

(** *** createCards *)

(** The loop creates the eight cards and places them; [card.init()],
    awaited for all cards of the array at once, is [createMesh]. *)
Definition createCards (w : world) : world :=
  let totalWidth :=
    to_number GRID_COLS * CARD_WIDTH
    + (to_number GRID_COLS - lit 1) * CARD_GAP in
  let totalHeight :=
    to_number GRID_ROWS * CARD_HEIGHT
    + (to_number GRID_ROWS - lit 1) * CARD_GAP in
  let startX := - totalWidth / lit 2 + CARD_WIDTH / lit 2 in
  let startY := totalHeight / lit 2 - CARD_HEIGHT / lit 2 in
  let w :=
    fold_left
      (fun w i =>
         let card := new_Card i in
         let col := Nat.modulo i GRID_COLS in
         let row := Nat.div i GRID_COLS in
         let x := startX + to_number col * (CARD_WIDTH + CARD_GAP) in
         let y := startY - to_number row * (CARD_HEIGHT + CARD_GAP) in
         let card := setPosition x y (lit 0) card in
         let w := set_cards (cards w ++ [card]) w in
         set_outside (outside w ++ ["scene.add(card.group)"]) w)
      (seq 0 8) w in
  set_cards (map createMesh (cards w)) w.

(** *** Arrays *)

(** [a[i] = v] for an index within the array. *)
Fixpoint set_at {A : Type} (i : nat) (v : A) (l : list A) : list A :=
  match l, i with
  | [], _ => []
  | _ :: l', O => v :: l'
  | x :: l', S i' => x :: set_at i' v l'
  end.

(** [a.splice(i, 1)]. *)
Fixpoint remove_at {A : Type} (i : nat) (l : list A) : list A :=
  match l, i with
  | [], _ => []
  | _ :: l', O => l'
  | x :: l', S i' => x :: remove_at i' l'
  end.

(** [a.findIndex(f)]; [None] stands for -1. *)
Fixpoint findIndex {A : Type} (f : A -> bool) (l : list A) : option nat :=
  match l with
  | [] => None
  | x :: l' =>
      if f x then Some 0
      else match findIndex f l' with
           | Some i => Some (S i)
           | None => None
           end
  end.

(** [===] on values that are a number or undefined. *)
Definition same (a b : option Z) : bool :=
  match a, b with
  | Some x, Some y => Z.eqb x y
  | None, None => true
  | _, _ => false
  end.

(** *** Math.random *)

Definition Math_random (w : world) : Q * world :=
  (entropy w (drawn w), set_drawn (S (drawn w)) w).

(** [Math.floor(Math.random() * n)]. *)
Definition random_below (n : nat) (w : world) : nat * world :=
  let '(r, w) := Math_random w in
  (Z.to_nat (Qfloor (r * inject_Z (Z.of_nat n))), w).

(** *** refillSets, getNextSet *)

(** [[sets[i], sets[j]] = [sets[j], sets[i]]], for [i] and [j] within
    the array; the loop of [refillSets] has [j <= i < sets.length]. *)
Definition swap (i j : nat) (sets : list Z) : list Z :=
  match nth_error sets i, nth_error sets j with
  | Some si, Some sj => set_at j si (set_at i sj sets)
  | _, _ => sets
  end.

(** The loop [for (let i = sets.length - 1; i > 0; i--)], entered with
    the value of [i]. *)
Fixpoint shuffle (i : nat) (sets : list Z) (w : world) : list Z * world :=
  match i with
  | O => (sets, w)
  | S i' =>
      let '(j, w) := random_below (i + 1) w in
      shuffle i' (swap i j sets) w
  end.

Definition refillSets (w : world) : world :=
  let sets := map (fun i => Z.of_nat i + 1)%Z (seq 0 TOTAL_IMAGE_SETS) in
  let '(sets, w) := shuffle (List.length sets - 1) sets w in
  set_availableSets (availableSets w ++ sets) w.

Definition getNextSet (w : world) : option Z * world :=
  let w := if Nat.eqb (List.length (availableSets w)) 0
           then refillSets w else w in
  let w :=
    if same (nth_error (availableSets w) 0) (lastShownSet w)
       && Nat.ltb 1 (List.length (availableSets w))
    then
      match findIndex (fun s => negb (same (Some s) (lastShownSet w)))
                      (availableSets w) with
      | Some (S i) =>
          let idx := S i in
          match nth_error (availableSets w) idx with
          | Some temp =>
              set_availableSets (temp :: remove_at idx (availableSets w)) w
          | None => w
          end
      | _ => w
      end
    else w in
  let shown := nth_error (availableSets w) 0 in
  let w := set_availableSets (tl (availableSets w)) w in
  (shown, set_lastShownSet shown w).

(** *** handleCardClick *)

(** [String(v)] inside a template literal. *)
Definition show (v : option Z) : string :=
  match v with
  | Some z => NilZero.string_of_int (Z.to_int z)
  | None => "undefined"
  end.

(** What [setFaceTexture] does before its first [await]: it asks for
    the image. *)
Definition setFaceTexture (imagePath : string) (c : card) : card :=
  push_log (EExtern ("setFaceTexture " ++ imagePath)) c.

Definition otherAvailableIndices (index : nat) (states : list string)
  : list nat :=
  let marked :=
    map (fun '(i, state) =>
           if (state =? "available") && negb (Nat.eqb i index)
           then Some i else None)
        (combine (seq 0 (List.length states)) states) in
  flat_map (fun m => match m with Some i => [i] | None => [] end) marked.

(** [None]: a TypeError, raised when a card is missing from [cards]. *)
Definition handleCardClick (index : nat) (w : world) : option world :=
  if showIntro w then Some w
  else if negb (match nth_error (slotStates w) index with
                | Some state => state =? "available"
                | None => false
                end) then Some w
  else
    let others := otherAvailableIndices index (slotStates w) in
    if Nat.eqb (List.length others) 0 then Some w
    else
      let '(pick, w) := random_below (List.length others) w in
      match nth_error others pick with
      | None => None
      | Some executionIndex =>
          let w := set_slotStates (set_at index "busy" (slotStates w)) w in
          let w :=
            set_slotStates (set_at executionIndex "busy" (slotStates w)) w in
          match nth_error (cards w) index,
                nth_error (cards w) executionIndex with
          | Some ideaCard, Some execCard =>
              let ideaCard := set_state "busy" ideaCard in
              let execCard := set_state "busy" execCard in
              let ideaCard := setHover false ideaCard in
              let execCard := setHover false execCard in
              let '(setNum, w) := getNextSet w in
              let ideaCard :=
                setFaceTexture ("images/idea-" ++ show setNum ++ ".png")
                               ideaCard in
              let execCard :=
                setFaceTexture ("images/execution-" ++ show setNum ++ ".png")
                               execCard in
              let ideaCard := flip None ideaCard in
              let w :=
                set_cards (set_at executionIndex execCard
                             (set_at index ideaCard (cards w))) w in
              let w :=
                set_timers
                  (timers w
                   ++ [(STAGGER_DELAY * lit 1000,
                        TFlipExecution setNum executionIndex)]) w in
              let totalWaitTime :=
                (STAGGER_DELAY + FLIP_DURATION + REVEAL_STAY_TIME)
                * lit 1000 in
              Some (set_timers
                      (timers w
                       ++ [(totalWaitTime,
                            TAnimateOutAndIn index executionIndex)]) w)
          | _, _ => None
          end
      end.

(** *** The background *)


(** *** The animation loop *)



End Game.

(* ================================================================= *)
(** ** The intro drop *)

Section Intro.
Context {N : Number}.
Open Scope js_scope.
Open Scope string_scope.


End Intro.

(* ================================================================= *)
(** ** Vocabulary of the animation loop *)

Section LoopVocabulary.
Context {N : Number}.
Open Scope js_scope.


End LoopVocabulary.

(* ================================================================= *)
(** ** Vocabulary of the landing theorems *)

Section CalmVocabulary.
Context {N : Number}.



(** *** A card at rest *)






End CalmVocabulary.

Section LandingVocabulary.
Local Existing Instance Exact.number.
Import Exact.
Local Open Scope Qc_scope.




End LandingVocabulary.

(** *** The animations of [slideIn]

    On a card with base height [bz], for the offset [zo] and the closure
    [k]: the fade, the drop to the overshoot, and the leg back to the base
    height that the closure of the drop enqueues; [n] is the identity and
    [e] the time elapsed. *)

Section SlideInVocabulary.
Local Existing Instance Exact.number.
Import Exact.
Local Open Scope string_scope.




End SlideInVocabulary.

(* ================================================================= *)
(** ** The cursor over a card *)

(** [Math.max], which the card class does not use and the mouse handler
    does: NaN if an argument is NaN, and +0 is larger than -0. *)
Class MoreMath (N : Number) : Type := {
  Math_max : num -> num -> num
}.

Definition Float64_max (a b : float) : float :=
  if PrimFloat.is_nan a || PrimFloat.is_nan b then PrimFloat.nan
  else if PrimFloat.ltb a b then b
  else if PrimFloat.ltb b a then a
  else if PrimFloat.get_sign a then b else a.


#[export] Instance Float64_more : MoreMath Float64.number :=
  {| Math_max := Float64_max : @num Float64.number -> _ |}.


Section Cursor.
Context {N : Number} {M : MoreMath N}.
Open Scope js_scope.


End Cursor.

Section TiltVocabulary.
Local Existing Instance Exact.number.
Import Exact.
Local Open Scope Qc_scope.

(** Both components are rationals of magnitude at most [m]. *)
Definition within (m : Qc) (v : vec2) : Prop :=
  exists x y, v = {| x2 := Fin x; y2 := Fin y |}
              /\ - m <= x /\ x <= m /\ - m <= y /\ y <= m.


End TiltVocabulary.

(* ================================================================= *)
(** ** Vocabulary of the invariants *)

Section InvariantVocabulary.
Context {N : Number}.


(** The three materials, once they exist, are as opaque as
    [currentOpacity] says. *)
Definition in_sync (c : card) : Prop :=
  match materials c with
  | Some m =>
      frontOpacity m = currentOpacity c
      /\ backOpacity m = currentOpacity c
      /\ edgeOpacity m = currentOpacity c
  | None => True
  end.

(** A number [nan] that every operation of [update] hands on and that
    compares false with 1. *)
Definition absorbing (nan : num) : Prop :=
  (forall x, nadd x nan = nan)
  /\ (forall x, nadd nan x = nan)
  /\ (forall x, ndiv nan x = nan)
  /\ (forall x, Math_min nan x = nan)
  /\ nge nan (lit 1) = false.

End InvariantVocabulary.

(** After a frame time [nan], no animation of the queue ever completes:
    in every later update the same animations are queued, their elapsed
    time is [nan], and no closure is invoked. *)
Definition stalls (N : Number) (nan : num) : Prop :=
  forall (c : card) (deltas : list num),
    let c' := run_updates deltas (update nan c) in
    ids (animations c') = ids (animations c)
    /\ Forall (fun a => elapsed a = nan) (animations c')
    /\ calls (new_events c c') = [].

(** *** Vocabulary of the set queue *)

Section SetVocabulary.
Context {N : Number}.

(** [Math.random()] returns numbers in [0, 1). *)
Definition fair (w : world) : Prop :=
  forall k, (0 <= entropy w k)%Q /\ (entropy w k < 1)%Q.

(** The queue of sets holds each set at most once, and not the set shown
    last. *)
Definition dealt (w : world) : Prop :=
  NoDup (availableSets w)
  /\ Forall (fun s => 1 <= s <= 6)%Z (availableSets w)
  /\ forall s, lastShownSet w = Some s -> ~ In s (availableSets w).

(** [n] successive calls of [getNextSet]. *)
Fixpoint getNextSets (n : nat) (w : world) : list (option Z) * world :=
  match n with
  | O => ([], w)
  | S n' =>
      let '(s, w) := getNextSet w in
      let '(l, w) := getNextSets n' w in
      (s :: l, w)
  end.

End SetVocabulary.

(** *** Games used in the concrete runs *)

Section GamesExact.
Local Existing Instance Exact.number.
Import Exact.
Local Open Scope string_scope.

(** A sequence of numbers in [0, 1). *)
Definition dice (k : nat) : Q :=
  Z.of_nat (Nat.modulo (7 * k + 3) 10) # 10.

(** The globals as the script declares them, once the scene has its
    background and the intro is over; [new THREE.Color()] is white. *)
Definition bare : world :=
  {| cards := []; availableSets := []; lastShownSet := Some (-1)%Z;
     slotStates := repeat "available" 8; showIntro := false;
     introCard := None;
     backgroundTransition :=
       {| isActive := false; startColor := Color "#ffffff";
          targetColor := Color "#ffffff"; startTime := lit 0;
          duration' := BACKGROUND_TRANSITION_DURATION |};
     scene_background := Color "0x04070b"; lastTime := lit 0;
     timers := []; entropy := dice; drawn := 0; outside := [] |}.

(** The eight cards on the grid, every slot available. *)
Definition lobby : world := createCards bare.



End GamesExact.

(* ================================================================= *)
(** ** The scheduler, structurally

    Everything from here to the arithmetic of the exact numbers holds
    for every instance of [Number]. *)

Section SchedulerFacts.
Context {N : Number}.
Open Scope js_scope.

Lemma new_events_app (c c' : card) (evs : list event) :
  log c' = log c ++ evs -> new_events c c' = evs.
Proof.
  unfold new_events. intros ->.
  rewrite skipn_app, skipn_all, Nat.sub_diag. reflexivity.
Qed.

Lemma callback_entry_app (a : animation) (l : list (nat * callback)) :
  callback_entry a ++ l =
  match onComplete a with Some k => (aid a, k) :: l | None => l end.
Proof. unfold callback_entry. destruct (onComplete a); reflexivity. Qed.

Lemma filter_pass_eq (dt : num) (q : list animation) (c : card) :
  filter_pass dt q c = (written dt q c, kept_of dt q, callbacks_of dt q).
Proof.
  revert c. induction q as [|a q IH]; intro c; [reflexivity|].
  cbn [filter_pass]. rewrite IH.
  unfold written, kept_of, callbacks_of, advanced. cbn [map fold_left filter].
  destruct (completes (advance dt a)) eqn:E; cbn [negb flat_map].
  - rewrite callback_entry_app. reflexivity.
  - reflexivity.
Qed.

Lemma update_eq (dt : num) (c : card) :
  update dt c =
  apply_transforms
    (hover_tilt
       (fold_left invoke (callbacks_of dt (animations c))
          (set_animations (kept_of dt (animations c))
             (written dt (animations c) c)))).
Proof. unfold update. rewrite filter_pass_eq. reflexivity. Qed.

(** *** What each operation leaves alone *)

Lemma setOpacity_frame (v : num) (c : card) :
  animations (setOpacity v c) = animations c
  /\ nextId (setOpacity v c) = nextId c
  /\ log (setOpacity v c) = log c.
Proof. unfold setOpacity. cbn. destruct (materials c); auto. Qed.

Lemma write_slot_frame (p : string) (v : num) (c : card) :
  animations (write_slot p v c) = animations c
  /\ nextId (write_slot p v c) = nextId c
  /\ log (write_slot p v c) = log c.
Proof.
  unfold write_slot.
  repeat match goal with
         | |- context [String.eqb ?a ?b] => destruct (String.eqb a b)
         end; auto using setOpacity_frame.
Qed.

Lemma apply_animation_frame (a : animation) (c : card) :
  animations (apply_animation a c) = animations c
  /\ nextId (apply_animation a c) = nextId c
  /\ log (apply_animation a c) = log c ++ write_events a.
Proof.
  unfold apply_animation, write_events.
  destruct (write_slot_frame (property a) (value_of a) c) as (Ha & Hn & Hl).
  destruct (recognized (property a)); cbn; rewrite ?Ha, ?Hn, ?Hl;
    rewrite ?app_nil_r; auto.
Qed.

Lemma apply_all_frame (l : list animation) (c : card) :
  let c' := fold_left (fun c a => apply_animation a c) l c in
  animations c' = animations c
  /\ nextId c' = nextId c
  /\ log c' = log c ++ flat_map write_events l.
Proof.
  revert c. induction l as [|a l IH]; intro c; cbn.
  - rewrite app_nil_r. auto.
  - destruct (IH (apply_animation a c)) as (Ha & Hn & Hl).
    destruct (apply_animation_frame a c) as (Ha' & Hn' & Hl').
    cbn in Ha, Hn, Hl.
    rewrite Ha, Hn, Hl, Ha', Hn', Hl', app_assoc. auto.
Qed.

Lemma written_frame (dt : num) (q : list animation) (c : card) :
  animations (written dt q c) = animations c
  /\ nextId (written dt q c) = nextId c
  /\ log (written dt q c) = log c ++ flat_map write_events (advanced dt q).
Proof. apply apply_all_frame. Qed.

Lemma animate_log p f t d e k (c : card) :
  log (animate p f t d e k c) = log c.
Proof. reflexivity. Qed.

Lemma setOpacity_log (v : num) (c : card) : log (setOpacity v c) = log c.
Proof. apply setOpacity_frame. Qed.

Lemma slideIn_log k zOffset (c : card) :
  log (slideIn k zOffset c) =
  log c ++ [EExtern "SoundManager.playRandomPlace"].
Proof.
  destruct c as [? ? ? ? ? ? ? ? ? ? ? ? ? ? ? ? ? ? m ? ?].
  unfold slideIn, setOpacity, push_log, animate, enqueue. cbn.
  destruct m; reflexivity.
Qed.

Lemma reset_log (c : card) :
  log (reset c) = log c ++ [EExtern "clearFaceTexture"].
Proof.
  destruct c as [? ? ? ? ? ? ? ? ? ? ? ? ? ? ? ? ? ? m ? ?].
  unfold reset, setOpacity, push_log. cbn.
  destruct m; reflexivity.
Qed.

Lemma run_cmd_log (c : card) (k : cmd) :
  log (run_cmd c k) = log c ++ cmd_events k.
Proof.
  destruct k; cbn [run_cmd cmd_events]; rewrite ?app_nil_r.
  - reflexivity.
  - apply animate_log.
  - apply slideIn_log.
  - apply reset_log.
  - apply setOpacity_log.
  - reflexivity.
  - destruct c. reflexivity.
  - reflexivity.
Qed.

Lemma run_callback_log (k : callback) (c : card) :
  log (run_callback k c) = log c ++ flat_map cmd_events k.
Proof.
  unfold run_callback. revert c.
  induction k as [|x k IH]; intro c; cbn.
  - now rewrite app_nil_r.
  - rewrite IH, run_cmd_log, app_assoc. reflexivity.
Qed.

Lemma invoke_log (c : card) (cb : nat * callback) :
  log (invoke c cb) = log c ++ call_events cb.
Proof.
  unfold invoke, call_events. rewrite run_callback_log. cbn.
  rewrite <- app_assoc. reflexivity.
Qed.

Lemma invoke_all_log (cbs : list (nat * callback)) (c : card) :
  log (fold_left invoke cbs c) = log c ++ flat_map call_events cbs.
Proof.
  revert c. induction cbs as [|cb cbs IH]; intro c; cbn [fold_left flat_map].
  - now rewrite app_nil_r.
  - rewrite IH, invoke_log, <- app_assoc. reflexivity.
Qed.

Lemma hover_tilt_frame (c : card) :
  animations (hover_tilt c) = animations c
  /\ nextId (hover_tilt c) = nextId c
  /\ log (hover_tilt c) = log c
  /\ slots (hover_tilt c) = slots c.
Proof.
  unfold hover_tilt.
  destruct (isHovered c && negb (hasFlipAnim c)); [cbn; auto|].
  destruct (negb (isHovered c)); cbn; auto.
Qed.

Lemma apply_transforms_frame (c : card) :
  animations (apply_transforms c) = animations c
  /\ nextId (apply_transforms c) = nextId c
  /\ log (apply_transforms c) = log c
  /\ slots (apply_transforms c) = slots c.
Proof. destruct c. cbn. auto. Qed.

Lemma set_animations_frame (q : list animation) (c : card) :
  animations (set_animations q c) = q
  /\ nextId (set_animations q c) = nextId c
  /\ log (set_animations q c) = log c
  /\ slots (set_animations q c) = slots c.
Proof. destruct c. cbn. auto. Qed.

Lemma update_stages (dt : num) (c : card) :
  update dt c = apply_transforms (hover_tilt (after_callbacks dt c)).
Proof. apply update_eq. Qed.

Lemma update_frame (dt : num) (c : card) :
  animations (update dt c) = animations (after_callbacks dt c)
  /\ nextId (update dt c) = nextId (after_callbacks dt c)
  /\ log (update dt c) = log (after_callbacks dt c)
  /\ slots (update dt c) = slots (after_callbacks dt c).
Proof.
  rewrite update_stages.
  destruct (apply_transforms_frame (hover_tilt (after_callbacks dt c)))
    as (-> & -> & -> & ->).
  apply hover_tilt_frame.
Qed.

Lemma after_pass_frame (dt : num) (c : card) :
  animations (after_pass dt c) = kept_of dt (animations c)
  /\ nextId (after_pass dt c) = nextId c
  /\ log (after_pass dt c) =
     log c ++ flat_map write_events (advanced dt (animations c))
  /\ slots (after_pass dt c) = slots (written dt (animations c) c).
Proof.
  unfold after_pass.
  destruct (set_animations_frame (kept_of dt (animations c))
              (written dt (animations c) c)) as (-> & -> & -> & ->).
  destruct (written_frame dt (animations c) c) as (_ & -> & ->). auto.
Qed.

(** The log of one [update]: the slot writes of the pass in queue order,
    then each callback with the effects it causes. *)
Lemma update_log (dt : num) (c : card) :
  log (update dt c) =
  log c ++ flat_map write_events (advanced dt (animations c))
        ++ flat_map call_events (callbacks_of dt (animations c)).
Proof.
  destruct (update_frame dt c) as (_ & _ & -> & _).
  unfold after_callbacks. rewrite invoke_all_log.
  destruct (after_pass_frame dt c) as (_ & _ & -> & _).
  now rewrite app_assoc.
Qed.

Lemma update_new_events (dt : num) (c : card) :
  new_events c (update dt c) =
  flat_map write_events (advanced dt (animations c))
  ++ flat_map call_events (callbacks_of dt (animations c)).
Proof. apply new_events_app, update_log. Qed.

End SchedulerFacts.

(* ================================================================= *)
(** ** Order of writes and callbacks within one update *)

Section Ordering.
Context {N : Number}.
Open Scope js_scope.

Lemma write_events_are_writes (l : list animation) :
  forallb is_write (flat_map write_events l) = true.
Proof.
  induction l as [|a l IH]; [reflexivity|].
  cbn [flat_map]. rewrite forallb_app, IH, andb_true_r.
  unfold write_events. destruct (recognized (property a)); reflexivity.
Qed.

Lemma cmd_events_are_extern (k : callback) :
  forallb is_extern (flat_map cmd_events k) = true.
Proof.
  induction k as [|x k IH]; [reflexivity|].
  cbn [flat_map]. rewrite forallb_app, IH, andb_true_r.
  destruct x; reflexivity.
Qed.

Lemma call_events_no_write (cbs : list (nat * callback)) :
  forallb (fun e => negb (is_write e)) (flat_map call_events cbs) = true.
Proof.
  induction cbs as [|cb cbs IH]; [reflexivity|].
  cbn [flat_map]. rewrite forallb_app, IH, andb_true_r.
  unfold call_events. cbn [forallb is_write negb andb].
  generalize (cmd_events_are_extern (snd cb)).
  induction (flat_map cmd_events (snd cb)) as [|e l IHl]; [reflexivity|].
  cbn [forallb]. intros H. apply andb_prop in H as [He Hl].
  destruct e; try discriminate. cbn. auto.
Qed.

Lemma calls_extern (l : list event) :
  forallb is_extern l = true -> calls l = [].
Proof.
  induction l as [|e l IH]; [reflexivity|].
  cbn [forallb]. intros H. apply andb_prop in H as [He Hl].
  destruct e; try discriminate. cbn. auto.
Qed.

Lemma calls_app (l1 l2 : list event) : calls (l1 ++ l2) = calls l1 ++ calls l2.
Proof. unfold calls. apply flat_map_app. Qed.

Lemma calls_call_events (cbs : list (nat * callback)) :
  calls (flat_map call_events cbs) = map fst cbs.
Proof.
  induction cbs as [|cb cbs IH]; [reflexivity|].
  cbn [flat_map map]. rewrite calls_app, IH.
  unfold call_events.
  change (ECall (fst cb) :: flat_map cmd_events (snd cb))
    with ([ECall (fst cb)] ++ flat_map cmd_events (snd cb)).
  rewrite calls_app, (calls_extern _ (cmd_events_are_extern (snd cb))).
  reflexivity.
Qed.

Lemma callbacks_of_ids (dt : num) (q : list animation) :
  map fst (callbacks_of dt q) =
  ids (filter (fun a => completes a && has_callback a) (advanced dt q)).
Proof.
  unfold callbacks_of. induction (advanced dt q) as [|a l IH]; [reflexivity|].
  cbn [filter]. unfold has_callback at 1.
  destruct (completes a); cbn [andb flat_map]; [|exact IH].
  rewrite map_app, IH. unfold callback_entry.
  destruct (onComplete a); reflexivity.
Qed.

(** C4.  The events of one [update] are the slot writes of the filter pass
    followed by a part that contains no slot write, and the callbacks in
    that part are those of the completing animations in the order in which
    the queue was traversed. *)
Theorem update_writes_then_callbacks (dt : num) (c : card) :
  let writes := flat_map write_events (advanced dt (animations c)) in
  let after := flat_map call_events (callbacks_of dt (animations c)) in
  new_events c (update dt c) = writes ++ after
  /\ forallb is_write writes = true
  /\ forallb (fun e => negb (is_write e)) after = true
  /\ calls after =
     ids (filter (fun a => completes a && has_callback a)
            (advanced dt (animations c))).
Proof.
  cbv zeta. repeat split.
  - apply update_new_events.
  - apply write_events_are_writes.
  - apply call_events_no_write.
  - rewrite calls_call_events. apply callbacks_of_ids.
Qed.

End Ordering.

(* ================================================================= *)
(** ** Property names outside the if-else chain *)

Section UnknownProperty.
Context {N : Number}.
Open Scope js_scope.







End UnknownProperty.

(* ================================================================= *)
(** ** setHover *)

Section Hover.
Context {N : Number}.
Open Scope js_scope.

(** C10.  With a flip-tagged animation queued or [isSliding] set,
    [setHover] returns the card unchanged.  Otherwise the queue becomes
    the old one without its [scale] and [positionZ] animations that carry
    no flip tag, followed by the two new animations. *)
Theorem setHover_gate (hovered : bool) (c : card) :
  (hasFlipAnim c || isSliding c = true -> setHover hovered c = c)
  /\ (hasFlipAnim c || isSliding c = false ->
      animations (setHover hovered c) =
      filter survives_hover (animations c)
      ++ [ {| aid := nextId c; property := "scale";
              from := currentScale c;
              to := if hovered then HOVER_SCALE else lit 1;
              duration := lit (2 # 10); easing := easeOutCubic;
              elapsed := lit 0; onComplete := None;
              isFlipAnimation := false |};
           {| aid := S (nextId c); property := "positionZ";
              from := z3 (currentPosition c);
              to := if hovered then lit (3 # 10) else lit 0;
              duration := lit (2 # 10); easing := easeOutCubic;
              elapsed := lit 0; onComplete := None;
              isFlipAnimation := false |} ]).
Proof.
  unfold setHover. split; intros ->; [reflexivity|].
  destruct c. destruct hovered; cbn; rewrite <- app_assoc; reflexivity.
Qed.

End Hover.

(* ================================================================= *)
(** ** What the callbacks of one update do to the queue *)

Section Queue.
Context {N : Number}.

Lemma ids_advanced (dt : num) (q : list animation) :
  ids (advanced dt q) = ids q.
Proof.
  unfold ids, advanced. rewrite map_map. reflexivity.
Qed.

Lemma ids_filter_incl (f : animation -> bool) (l : list animation) :
  incl (ids (filter f l)) (ids l).
Proof.
  intros i Hi. apply in_map_iff in Hi as (a & <- & Ha).
  apply filter_In in Ha as [Ha _]. now apply in_map.
Qed.

Lemma ids_filter_NoDup (f : animation -> bool) (l : list animation) :
  NoDup (ids l) -> NoDup (ids (filter f l)).
Proof.
  induction l as [|a l IH]; cbn; [auto|].
  intros H. inversion_clear H as [|? ? Hn Hd].
  destruct (f a); cbn; auto.
  constructor; auto. intros Hin. apply Hn.
  now apply (ids_filter_incl f l).
Qed.

Lemma kept_ids_incl (dt : num) (q : list animation) :
  incl (ids (kept_of dt q)) (ids q).
Proof.
  unfold kept_of. rewrite <- (ids_advanced dt q). apply ids_filter_incl.
Qed.

Lemma kept_ids_NoDup (dt : num) (q : list animation) :
  NoDup (ids q) -> NoDup (ids (kept_of dt q)).
Proof.
  intros H. unfold kept_of. apply ids_filter_NoDup.
  now rewrite ids_advanced.
Qed.

(** The animations a closure operation appends, or the emptied queue of
    a reset. *)
Lemma run_cmd_queue (c : card) (k : cmd) :
  exists new,
    (animations (run_cmd c k) = animations c ++ new
     \/ (animations (run_cmd c k) = [] /\ new = []))
    /\ ids new = seq (nextId c) (List.length new)
    /\ nextId (run_cmd c k) = nextId c + List.length new
    /\ Forall (fun a => elapsed a = lit 0) new.
Proof.
  destruct k as [b|p f t d e k'|k' z| |v|st| |l]; cbn [run_cmd].
  - exists []. cbn. rewrite app_nil_r, Nat.add_0_r. auto.
  - eexists [_]. cbn.
    repeat split; [left; reflexivity|reflexivity|lia|repeat constructor].
  - destruct c as [? ? ? ? ? ? ? ? ? ? ? ? ? ? ? ? ? ? m ? ?].
    unfold slideIn, setOpacity, push_log, animate, enqueue. cbn.
    destruct m; cbn; eexists [_; _]; (repeat split;
      [left; rewrite <- app_assoc; reflexivity|reflexivity|cbn; lia
      |repeat constructor]).
  - exists []. destruct c as [? ? ? ? ? ? ? ? ? ? ? ? ? ? ? ? ? ? m ? ?].
    unfold reset, setOpacity, push_log. cbn.
    destruct m; cbn; rewrite Nat.add_0_r; auto.
  - exists []. destruct (setOpacity_frame v c) as (-> & -> & _).
    cbn. rewrite app_nil_r, Nat.add_0_r. auto.
  - exists []. cbn. rewrite app_nil_r, Nat.add_0_r. auto.
  - exists []. destruct c. cbn. rewrite app_nil_r, Nat.add_0_r. auto.
  - exists []. cbn. rewrite app_nil_r, Nat.add_0_r. auto.
Qed.

Lemma ids_seq_bounds (new : list animation) (n : nat) :
  ids new = seq n (List.length new) ->
  Forall (fun a => n <= aid a < n + List.length new) new.
Proof.
  intros H. apply Forall_forall. intros a Ha.
  assert (Hi : In (aid a) (ids new)) by now apply in_map.
  rewrite H in Hi. apply in_seq in Hi. lia.
Qed.

Lemma run_cmd_grown (n0 : nat) (old : list animation) (c : card) (k : cmd) :
  grown n0 old c -> grown n0 old (run_cmd c k).
Proof.
  intros (Hn & new & Hq & Hd & Hf).
  destruct (run_cmd_queue c k) as (add & Hq' & Hids & Hn' & Hz).
  split; [lia|].
  destruct Hq' as [Hq'|[Hq' ->]].
  - exists (new ++ add). repeat split.
    + rewrite Hq'. destruct Hq as [-> | ->];
        [left; now rewrite app_assoc | now right].
    + unfold ids. rewrite map_app. apply NoDup_app; auto.
      * fold (ids add). rewrite Hids. apply seq_NoDup.
      * intros i Hi Hi'. fold (ids add) in Hi'. rewrite Hids in Hi'.
        apply in_seq in Hi'. apply in_map_iff in Hi as (a & <- & Ha).
        rewrite Forall_forall in Hf. destruct (Hf a Ha) as [? _]. lia.
    + apply Forall_app. split.
      * eapply Forall_impl; [|exact Hf]. cbn. intros a [? ?]. split; [lia|auto].
      * pose proof (ids_seq_bounds add (nextId c) Hids) as Hb.
        rewrite Forall_forall in *. intros a Ha.
        specialize (Hb a Ha). specialize (Hz a Ha). cbn in Hz.
        split; [lia|auto].
  - exists []. repeat split; [now right|constructor|constructor].
Qed.

Lemma invoke_grown (n0 : nat) (old : list animation) (c : card)
    (cb : nat * callback) :
  grown n0 old c -> grown n0 old (invoke c cb).
Proof.
  unfold invoke, run_callback. intros H.
  assert (H0 : grown n0 old (push_log (ECall (fst cb)) c)) by exact H.
  revert H0. generalize (push_log (ECall (fst cb)) c).
  induction (snd cb) as [|k ks IH]; intros c0 H0; cbn [fold_left]; auto.
  apply IH. now apply run_cmd_grown.
Qed.

Lemma update_grown (dt : num) (c : card) :
  grown (nextId c) (kept_of dt (animations c)) (update dt c).
Proof.
  assert (H : grown (nextId c) (kept_of dt (animations c))
                (after_callbacks dt c)).
  { unfold after_callbacks.
    assert (H0 : grown (nextId c) (kept_of dt (animations c))
                   (after_pass dt c)).
    { destruct (after_pass_frame dt c) as (Ha & Hn & _).
      split; [lia|]. exists []. rewrite Ha, app_nil_r.
      repeat split; [now left|constructor|constructor]. }
    revert H0. generalize (after_pass dt c).
    induction (callbacks_of dt (animations c)) as [|cb cbs IH];
      intros c0 H0; cbn [fold_left]; auto.
    apply IH. now apply invoke_grown. }
  destruct (update_frame dt c) as (Ha & Hn & _).
  unfold grown. rewrite Ha, Hn. exact H.
Qed.

Lemma update_nextId (dt : num) (c : card) : nextId c <= nextId (update dt c).
Proof. apply (update_grown dt c). Qed.

(** Identities that are in the queue after an update were in it before,
    or are new. *)
Lemma update_ids (dt : num) (c : card) (i : nat) :
  In i (ids (animations (update dt c))) ->
  In i (ids (kept_of dt (animations c))) \/ nextId c <= i.
Proof.
  destruct (update_grown dt c) as (_ & new & Hq & _ & Hf).
  intros Hi. rewrite Forall_forall in Hf.
  assert (Hnew : In i (ids new) -> nextId c <= i).
  { intros H. apply in_map_iff in H as (a & <- & Ha).
    destruct (Hf a Ha) as [? _]. lia. }
  destruct Hq as [Hq|Hq]; rewrite Hq in Hi; auto.
  unfold ids in Hi. rewrite map_app in Hi.
  apply in_app_or in Hi as [Hi|Hi]; auto.
Qed.

Lemma update_wf (dt : num) (c : card) : wf c -> wf (update dt c).
Proof.
  intros [Hd Hlt].
  destruct (update_grown dt c) as (Hn & new & Hq & Hdn & Hf).
  assert (Hk : Forall (fun a => aid a < nextId c) (kept_of dt (animations c))).
  { apply Forall_forall. intros a Ha.
    assert (Hi : In (aid a) (ids (animations c))).
    { apply (kept_ids_incl dt). now apply in_map. }
    apply in_map_iff in Hi as (b & Hb & Hin).
    rewrite Forall_forall in Hlt. rewrite <- Hb. auto. }
  assert (Hnew : Forall (fun a => aid a < nextId (update dt c)) new).
  { eapply Forall_impl; [|exact Hf]. cbn. intros a [? _]. lia. }
  destruct Hq as [Hq|Hq]; unfold wf; rewrite Hq; split; auto.
  - unfold ids. rewrite map_app. apply NoDup_app; auto.
    + now apply kept_ids_NoDup.
    + intros i Hi Hi'.
      apply in_map_iff in Hi as (a & <- & Ha).
      apply in_map_iff in Hi' as (b & Hb & Hin).
      rewrite Forall_forall in Hk, Hf.
      specialize (Hk a Ha). destruct (Hf b Hin) as [? _]. lia.
  - apply Forall_app. split; auto.
    eapply Forall_impl; [|exact Hk]. cbn. intros. lia.
Qed.

End Queue.

(* ================================================================= *)
(** ** Animations created during an update; animations that completed *)

Section Lifecycle.
Context {N : Number}.

Lemma push_log_frame (e : event) (c : card) :
  animations (push_log e c) = animations c
  /\ nextId (push_log e c) = nextId c.
Proof. destruct c. cbn. auto. Qed.

Lemma animate_queue p f t d e k (c : card) :
  animations (animate p f t d e k c) =
  animations c ++ [ {| aid := nextId c; property := p; from := f; to := t;
                       duration := d; easing := e; elapsed := lit 0;
                       onComplete := k; isFlipAnimation := false |} ].
Proof. reflexivity. Qed.

Lemma write_event_ids (l : list animation) (e : event) (i : nat) :
  In e (flat_map write_events l) -> event_id e = Some i -> In i (ids l).
Proof.
  intros He Hi. apply in_flat_map in He as (a & Ha & He).
  unfold write_events in He.
  destruct (recognized (property a)); [|contradiction].
  destruct He as [<-|[]]. cbn in Hi. injection Hi as <-. now apply in_map.
Qed.

Lemma call_event_ids (cbs : list (nat * callback)) (e : event) (i : nat) :
  In e (flat_map call_events cbs) -> event_id e = Some i ->
  In i (map fst cbs).
Proof.
  intros He Hi. apply in_flat_map in He as (cb & Hcb & He).
  destruct He as [<-|He].
  - cbn in Hi. injection Hi as <-. now apply in_map.
  - exfalso. pose proof (cmd_events_are_extern (snd cb)) as Hx.
    rewrite forallb_forall in Hx. specialize (Hx e He).
    destruct e; discriminate.
Qed.

(** The events of an update are about animations of the queue it
    started from. *)
Lemma update_event_ids (dt : num) (c : card) (e : event) (i : nat) :
  In e (new_events c (update dt c)) -> event_id e = Some i ->
  In i (ids (animations c)).
Proof.
  rewrite update_new_events. intros He Hi.
  apply in_app_or in He as [He|He].
  - rewrite <- (ids_advanced dt). eapply write_event_ids; eauto.
  - pose proof (call_event_ids _ _ _ He Hi) as H.
    rewrite callbacks_of_ids in H.
    rewrite <- (ids_advanced dt). eapply ids_filter_incl; eauto.
Qed.

(** C3.  After [update], the queue is what the filter pass kept (nothing,
    if a callback reset the card) followed by the animations the callbacks
    created.  Those have [elapsed] 0 and no event of the call is about
    them: they were not advanced, not written and not completed.  Every
    event of the call is about an animation of the starting queue.  In
    particular a completion closure that calls [animate] leaves the new
    animation, unadvanced, at the back of the queue. *)
Theorem callbacks_enqueue_for_next_update (dt : num) (c : card) :
  wf c ->
  (exists new,
     (animations (update dt c) = kept_of dt (animations c) ++ new
      \/ animations (update dt c) = new)
     /\ Forall (fun a =>
                  elapsed a = lit 0
                  /\ nextId c <= aid a
                  /\ forall e, In e (new_events c (update dt c)) ->
                               event_id e <> Some (aid a)) new)
  /\ (forall e i, In e (new_events c (update dt c)) ->
                  event_id e = Some i -> In i (ids (animations c)))
  /\ (forall i p f t d e k,
        callbacks_of dt (animations c) = [(i, [CAnimate p f t d e k])] ->
        animations (update dt c) =
        kept_of dt (animations c)
        ++ [ {| aid := nextId c; property := p; from := f; to := t;
                duration := d; easing := e; elapsed := lit 0;
                onComplete := k; isFlipAnimation := false |} ]).
Proof.
  intros [_ Hlt]. repeat split.
  - destruct (update_grown dt c) as (_ & new & Hq & _ & Hf).
    exists new. split; [exact Hq|].
    eapply Forall_impl; [|exact Hf]. cbn. intros a [[Hge _] Hz].
    repeat split; auto. intros e He Hid.
    pose proof (update_event_ids dt c e _ He Hid) as Hin.
    apply in_map_iff in Hin as (b & Hb & Hin).
    rewrite Forall_forall in Hlt. specialize (Hlt b Hin). lia.
  - apply update_event_ids.
  - intros i p f t d e k Hcb.
    destruct (update_frame dt c) as (-> & _).
    unfold after_callbacks. rewrite Hcb.
    cbn [fold_left invoke run_callback run_cmd snd fst].
    rewrite animate_queue.
    destruct (push_log_frame (ECall i) (after_pass dt c)) as (-> & ->).
    destruct (after_pass_frame dt c) as (-> & -> & _). reflexivity.
Qed.

Lemma calls_writes (l : list event) :
  forallb is_write l = true -> calls l = [].
Proof.
  induction l as [|e l IH]; [reflexivity|].
  cbn [forallb]. intros H. apply andb_prop in H as [He Hl].
  destruct e; try discriminate. cbn. auto.
Qed.

Lemma count_filter_ids (f : animation -> bool) (l : list animation)
    (a : animation) :
  NoDup (ids l) -> In a l ->
  count_occ Nat.eq_dec (ids (filter f l)) (aid a) = if f a then 1 else 0.
Proof.
  unfold ids. induction l as [|b l IH]; [contradiction|].
  cbn [map]. intros Hd Hin. inversion_clear Hd as [|? ? Hn Hd'].
  assert (Hrest : ~ In (aid b) (map aid (filter f l))).
  { intros H. apply Hn. now apply (ids_filter_incl f l). }
  destruct Hin as [->|Hin].
  - cbn [filter]. destruct (f a); cbn [map count_occ].
    + destruct (Nat.eq_dec (aid a) (aid a)); [|congruence].
      now rewrite (proj1 (count_occ_not_In Nat.eq_dec _ _) Hrest).
    + now apply count_occ_not_In.
  - assert (Hne : aid b <> aid a).
    { intros E. apply Hn. rewrite E. now apply in_map. }
    cbn [filter]. destruct (f b); cbn [map count_occ]; auto.
    destruct (Nat.eq_dec (aid b) (aid a)); [contradiction|]. now apply IH.
Qed.

Lemma completed_not_kept (dt : num) (q : list animation) (a : animation) :
  NoDup (ids q) -> In a q -> completes (advance dt a) = true ->
  ~ In (aid a) (ids (kept_of dt q)).
Proof.
  intros Hd Hin Hc Hk.
  apply (count_occ_In Nat.eq_dec) in Hk.
  assert (Ha : In (advance dt a) (advanced dt q)) by now apply in_map.
  rewrite <- (ids_advanced dt) in Hd.
  unfold kept_of in Hk.
  change (aid a) with (aid (advance dt a)) in Hk.
  rewrite (count_filter_ids _ _ _ Hd Ha), Hc in Hk. cbn in Hk. lia.
Qed.

(** The log only grows. *)
Lemma run_updates_log (deltas : list num) (c : card) :
  log (run_updates deltas c) = log c ++ new_events c (run_updates deltas c).
Proof.
  unfold run_updates. revert c.
  induction deltas as [|dt deltas IH]; intros c; cbn [fold_left].
  - unfold new_events. now rewrite skipn_all, app_nil_r.
  - rewrite (new_events_app c _
               (new_events c (update dt c)
                ++ new_events (update dt c)
                     (fold_left (fun c dt => update dt c) deltas
                        (update dt c)))).
    + rewrite IH at 1. rewrite update_log at 1.
      now rewrite update_new_events, <- !app_assoc.
    + rewrite IH at 1. rewrite update_log at 1.
      now rewrite update_new_events, <- !app_assoc.
Qed.

Lemma run_updates_cons_events (dt : num) (deltas : list num) (c : card) :
  new_events c (run_updates (dt :: deltas) c) =
  new_events c (update dt c)
  ++ new_events (update dt c) (run_updates deltas (update dt c)).
Proof.
  apply new_events_app.
  change (run_updates (dt :: deltas) c)
    with (run_updates deltas (update dt c)).
  rewrite run_updates_log at 1. rewrite update_log at 1.
  now rewrite update_new_events, <- !app_assoc.
Qed.

(** An identity that has left the queue stays out of it, and no later
    event is about it. *)
Lemma gone_stays_gone (i : nat) (deltas : list num) (c : card) :
  wf c -> i < nextId c -> ~ In i (ids (animations c)) ->
  ~ In i (ids (animations (run_updates deltas c)))
  /\ forall e, In e (new_events c (run_updates deltas c)) ->
               event_id e <> Some i.
Proof.
  revert c.
  induction deltas as [|dt deltas IH]; intros c Hwf Hlt Hout.
  - split; [exact Hout|].
    unfold run_updates, new_events. cbn [fold_left].
    rewrite skipn_all. contradiction.
  - assert (Hout' : ~ In i (ids (animations (update dt c)))).
    { intros H. apply update_ids in H as [H|H]; [|lia].
      apply Hout. now apply (kept_ids_incl dt). }
    destruct (IH (update dt c) (update_wf dt c Hwf)) as [Hq He]; auto.
    { pose proof (update_nextId dt c). lia. }
    split; [exact Hq|].
    intros e Hin Hid. rewrite run_updates_cons_events in Hin.
    apply in_app_or in Hin as [Hin|Hin].
    + apply Hout. eapply update_event_ids; eauto.
    + now apply (He e).
Qed.

(** How often the closure of a queued animation is invoked by one update. *)
Lemma update_call_count (dt : num) (c : card) (a : animation) :
  wf c -> In a (animations c) ->
  count_occ Nat.eq_dec (calls (new_events c (update dt c))) (aid a)
  = if completes (advance dt a) && has_callback a then 1 else 0.
Proof.
  intros [Hd _] Hin.
  assert (Ha : In (advance dt a) (advanced dt (animations c)))
    by now apply in_map.
  rewrite update_new_events, calls_app.
  rewrite (calls_writes _ (write_events_are_writes _)).
  rewrite calls_call_events, callbacks_of_ids. cbn [app].
  rewrite <- (ids_advanced dt) in Hd.
  change (aid a) with (aid (advance dt a)).
  now rewrite (count_filter_ids _ _ _ Hd Ha).
Qed.


(** What the update in which an animation completes does with it. *)
Lemma completing_update (dt : num) (c : card) (a : animation) :
  wf c -> In a (animations c) -> completes (advance dt a) = true ->
  ~ In (aid a) (ids (animations (update dt c)))
  /\ count_occ Nat.eq_dec (calls (new_events c (update dt c))) (aid a)
     = (if has_callback a then 1 else 0)
  /\ (recognized (property a) = true ->
      In (EWrite (aid a) (property a) (value_of (advance dt a)))
         (new_events c (update dt c))).
Proof.
  intros Hwf Hin Hc.
  assert (Hlt : aid a < nextId c).
  { destruct Hwf as [_ H]. rewrite Forall_forall in H. auto. }
  assert (Ha : In (advance dt a) (advanced dt (animations c)))
    by now apply in_map.
  repeat split.
  - intros H. apply update_ids in H as [H|H]; [|lia].
    destruct Hwf as [Hd _]. revert H. now apply completed_not_kept.
  - now rewrite (update_call_count dt c a Hwf Hin), Hc.
  - intros Hr. rewrite update_new_events. apply in_or_app. left.
    apply in_flat_map. exists (advance dt a). split; [exact Ha|].
    unfold write_events. cbn [advance set_elapsed property].
    rewrite Hr. now left.
Qed.

(** C6.  An animation whose progress reaches 1 in an [update] is out of
    the queue after that call, its [onComplete] was invoked once in it
    (not at all if it has none), and whatever updates follow, it does not
    come back and no write or callback is made for it again. *)
Theorem completed_animation_is_gone (dt : num) (deltas : list num)
    (c : card) (a : animation) :
  wf c -> In a (animations c) -> completes (advance dt a) = true ->
  let c1 := update dt c in
  let c2 := run_updates deltas c1 in
  ~ In (aid a) (ids (animations c1))
  /\ count_occ Nat.eq_dec (calls (new_events c c1)) (aid a)
     = (if has_callback a then 1 else 0)
  /\ ~ In (aid a) (ids (animations c2))
  /\ forall e, In e (new_events c1 c2) -> event_id e <> Some (aid a).
Proof.
  intros Hwf Hin Hc c1 c2.
  destruct (completing_update dt c a Hwf Hin Hc) as (Hout & Hcount & _).
  split; [exact Hout|]. split; [exact Hcount|].
  apply gone_stays_gone; auto.
  - now apply update_wf.
  - assert (Hlt : aid a < nextId c).
    { destruct Hwf as [_ H]. rewrite Forall_forall in H. auto. }
    pose proof (update_nextId dt c). unfold c1. lia.
Qed.

End Lifecycle.

(* ================================================================= *)
(** ** Two animations on one property *)

Section Conflict.
Context {N : Number}.















End Conflict.

(* ================================================================= *)
(** ** Arithmetic of the exact numbers *)

Module ExactFacts.
Import Exact.
Local Open Scope Qc_scope.

Lemma sign_pos (q : Qc) : 0 < q -> sign q = Gt.
Proof. intros H. unfold sign. now apply Qcgt_alt. Qed.

Lemma sign_zero : sign 0 = Eq.
Proof. reflexivity. Qed.


Lemma ltb_fin (p q : Qc) : ltb (Fin p) (Fin q) = true <-> p < q.
Proof.
  cbn [ltb]. rewrite Qclt_alt.
  destruct (p ?= q); split; intros H; try reflexivity; discriminate.
Qed.











End ExactFacts.

(* ================================================================= *)
(** ** Elapsed time and progress, over the exact numbers *)

Section Monotonicity.
Local Existing Instance Exact.number.
Import Exact ExactFacts.
Local Open Scope Qc_scope.













End Monotonicity.

(* ================================================================= *)
(** ** A queue whose closures are quiet; cards a program can build *)

Section Quiet.
Context {N : Number}.










Lemma wf_enqueue (a : animation) (c : card) :
  wf c -> aid a = nextId c -> wf (enqueue a c).
Proof.
  intros [Hd Hlt] Ha. unfold wf, enqueue.
  destruct c as [? ? ? ? ? ? ? ? ? ? ? ? ? ? ? ? q ? ? n ?].
  cbn in *. split.
  - unfold ids. rewrite map_app. apply NoDup_app; auto.
    + repeat constructor. intros [].
    + intros i Hi [<-|[]]. apply in_map_iff in Hi as (b & Hb & Hin).
      rewrite Forall_forall in Hlt. specialize (Hlt b Hin). lia.
  - apply Forall_app. split.
    + eapply Forall_impl; [|exact Hlt]. cbn. intros. lia.
    + constructor; [lia|constructor].
Qed.

Lemma wf_animate p f t d e k (c : card) :
  wf c -> wf (animate p f t d e k c).
Proof. intros H. now apply wf_enqueue. Qed.

(** *** Identities stay unique under every operation of the card *)

Lemma wf_ext (c c' : card) :
  animations c' = animations c -> nextId c' = nextId c -> wf c -> wf c'.
Proof. unfold wf. now intros -> ->. Qed.

Lemma wf_filter (f : animation -> bool) (c : card) :
  wf c -> wf (set_animations (filter f (animations c)) c).
Proof.
  intros [Hd Hlt]. destruct c. cbn in *. split.
  - now apply ids_filter_NoDup.
  - apply Forall_forall. intros a Ha. apply filter_In in Ha as [Ha _].
    rewrite Forall_forall in Hlt. auto.
Qed.

Lemma wf_empty (c : card) : animations c = [] -> wf c.
Proof. unfold wf. intros ->. split; constructor. Qed.

Lemma perform_wf (c : card) (m : call) : wf c -> wf (perform c m).
Proof.
  intros Hwf. destruct m; cbn [perform].
  - apply (wf_ext c); [destruct c; reflexivity..|exact Hwf].
  - now apply wf_animate.
  - now apply update_wf.
  - unfold setHover. destruct (hasFlipAnim c || isSliding c); [exact Hwf|].
    destruct isHovered0; cbv zeta; repeat apply wf_animate.
    + apply (wf_ext (set_animations (filter survives_hover (animations c)) c));
        [destruct c; reflexivity..|]. now apply wf_filter.
    + apply (wf_ext (set_animations (filter survives_hover (animations c)) c));
        [destruct c; reflexivity..|]. now apply wf_filter.
  - unfold updateHoverTilt. destruct (negb (isHovered c)); [exact Hwf|].
    apply (wf_ext c); [destruct c; reflexivity..|exact Hwf].
  - unfold flip. cbv zeta. repeat apply wf_animate.
    apply wf_enqueue; [|reflexivity].
    apply (wf_ext c); [destruct c; reflexivity..|exact Hwf].
  - apply wf_empty. destruct c as [? ? ? ? ? ? ? ? ? ? ? ? ? ? ? ? ? ? m ? ?].
    unfold reset, setOpacity, push_log. cbn. destruct m; reflexivity.
  - unfold slideOut. cbv zeta.
    repeat match goal with
           | |- context [Nat.eqb ?x ?y] => destruct (Nat.eqb x y)
           end; apply wf_animate;
      (apply (wf_ext c); [destruct c; reflexivity..|exact Hwf]).
  - unfold slideIn. cbv zeta. repeat apply wf_animate.
    apply (wf_ext c); [| |exact Hwf];
      destruct c as [? ? ? ? ? ? ? ? ? ? ? ? ? ? ? ? ? ? m ? ?];
      unfold setOpacity, push_log; cbn; destruct m; reflexivity.
  - destruct (setOpacity_frame value c) as (Ha & Hn & _).
    now apply (wf_ext c).
  - apply (wf_ext c); [destruct c; reflexivity..|exact Hwf].
Qed.

(** Every card a program can build has unique animation identities. *)
Lemma reachable_wf (c : card) : reachable c -> wf c.
Proof.
  intros (i & calls & ->).
  assert (H : wf (new_Card i)) by (split; constructor).
  revert H. generalize (new_Card i).
  induction calls as [|m calls IH]; intros c H; cbn [fold_left]; auto.
  apply IH. now apply perform_wf.
Qed.

End Quiet.

(* ================================================================= *)
(** ** Running one animation to its end, over the exact numbers *)

Section Completion.
Local Existing Instance Exact.number.
Import Exact ExactFacts.
Local Open Scope Qc_scope.

Local Abbreviation fin q := (Fin q : @num Exact.number) (only parsing).
Local Abbreviation fins l := (map Fin l : list (@num Exact.number)) (only parsing).






Lemma set_elapsed_advance (v dt : num) (a : animation) :
  set_elapsed v (advance dt a) = set_elapsed v a.
Proof. reflexivity. Qed.



End Completion.

(* ================================================================= *)
(** ** Duration zero *)

Section ZeroDuration.
Context {N : Number}.

Lemma clamped_completes_at_once :
  clamps_division_by_zero N -> completes_at_once N.
Proof.
  intros [Hdiv Hge] dt c a Hwf Hin HD He Hdt.
  assert (Hpr : progress_of (advance dt a) = lit 1).
  { unfold progress_of. cbn [advance set_elapsed elapsed duration].
    rewrite HD, He. now apply Hdiv. }
  assert (Hc : completes (advance dt a) = true).
  { unfold completes. now rewrite Hpr. }
  destruct (completing_update dt c a Hwf Hin Hc) as (Hout & Hcount & Hw).
  repeat split; auto.
  intros Hr. specialize (Hw Hr). unfold value_of in Hw.
  rewrite Hpr in Hw. exact Hw.
Qed.

End ZeroDuration.

Module Float64Facts.

Lemma positive_cases (dt : float) :
  PrimFloat.ltb 0 dt = true ->
  Prim2SF dt = S754_infinity false
  \/ exists m e, Prim2SF dt = S754_finite false m e.
Proof.
  rewrite FloatAxioms.ltb_spec. change (Prim2SF 0) with (S754_zero false).
  destruct (Prim2SF dt) as [s|s| |s m e]; cbn; try discriminate.
  - destruct s; try discriminate. auto.
  - destruct s; try discriminate. eauto.
Qed.

(** [0 + dt] is [dt]. *)
Lemma zero_plus (dt : float) :
  PrimFloat.ltb 0 dt = true -> PrimFloat.add 0 dt = dt.
Proof.
  intros H. apply Prim2SF_inj. rewrite FloatAxioms.add_spec.
  change (Prim2SF 0) with (S754_zero false).
  destruct (positive_cases dt H) as [-> | (m & e & ->)]; reflexivity.
Qed.

(** [dt / 0] is [Infinity]. *)
Lemma over_zero (dt : float) :
  PrimFloat.ltb 0 dt = true -> PrimFloat.div dt 0 = PrimFloat.infinity.
Proof.
  intros H. apply Prim2SF_inj. rewrite FloatAxioms.div_spec.
  change (Prim2SF 0) with (S754_zero false).
  change (Prim2SF infinity) with (S754_infinity false).
  destruct (positive_cases dt H) as [-> | (m & e & ->)]; reflexivity.
Qed.

Lemma SFcompare_Lt_Gt (x y : spec_float) :
  SFcompare x y = Some Lt -> SFcompare y x = Some Gt.
Proof.
  destruct x as [sx|sx| |sx mx ex], y as [sy|sy| |sy my ey]; cbn;
    try discriminate;
    try (destruct sx; try discriminate; reflexivity);
    try (destruct sy; try discriminate; reflexivity);
    try (destruct sx, sy; try discriminate; reflexivity).
  pose proof (Pos.compare_cont_antisym mx my Eq) as H. cbn in H.
  destruct sx, sy; try discriminate; try reflexivity;
    rewrite (Z.compare_antisym ex ey);
    destruct (Z.compare ex ey); cbn; try discriminate; try reflexivity;
    rewrite <- H;
    destruct (Pos.compare_cont Eq mx my); cbn; try discriminate; reflexivity.
Qed.

Lemma ltb_asym (x y : float) :
  PrimFloat.ltb x y = true -> PrimFloat.ltb y x = false.
Proof.
  rewrite !FloatAxioms.ltb_spec. unfold SFltb.
  destruct (SFcompare (Prim2SF x) (Prim2SF y)) as [[| |]|] eqn:E;
    try discriminate.
  intros _. now rewrite (SFcompare_Lt_Gt _ _ E).
Qed.

(** [Math.min(x, 1)] is never above 1, whatever [x] is. *)
Lemma min_1_at_most_1 (x : float) :
  PrimFloat.ltb 1 (Float64.min x 1) = false.
Proof.
  unfold Float64.min.
  destruct (PrimFloat.is_nan x || PrimFloat.is_nan 1); [reflexivity|].
  destruct (PrimFloat.ltb x 1) eqn:E1; [now apply ltb_asym|].
  destruct (PrimFloat.ltb 1 x) eqn:E2; [reflexivity|].
  destruct (PrimFloat.get_sign x); [exact E2|reflexivity].
Qed.

(** In binary64, progress is never above 1. *)
Lemma progress_at_most_1 (a : @animation Float64.number) :
  @nlt Float64.number (lit 1) (progress_of a) = false.
Proof. apply min_1_at_most_1. Qed.

Lemma clamps_division_by_zero : clamps_division_by_zero Float64.number.
Proof.
  split; [|reflexivity]. intros dt H.
  change (Float64.min (PrimFloat.div (PrimFloat.add 0 dt) 0) 1 = 1%float).
  change (PrimFloat.ltb 0 dt = true) in H.
  rewrite (zero_plus dt H), (over_zero dt H). reflexivity.
Qed.

End Float64Facts.

Lemma exact_positive_cases (x : Exact.xnum) :
  Exact.ltb (Exact.Fin (Q2Qc 0)) x = true ->
  (exists q, x = Exact.Fin q /\ (Q2Qc 0 < q)%Qc) \/ x = Exact.PosInf.
Proof.
  destruct x as [q| | |]; cbn; intros H; try discriminate.
  - left. exists q. split; [reflexivity|]. now apply ExactFacts.ltb_fin.
  - now right.
Qed.

Lemma exact_clamps_division_by_zero : clamps_division_by_zero Exact.number.
Proof.
  split; [|reflexivity]. intros dt H.
  destruct (exact_positive_cases dt H) as [(d & -> & Hd)| ->].
  - cbn [nadd ndiv Math_min lit Exact.number Exact.add Exact.div].
    change (Q2Qc 0) with 0%Qc.
    rewrite ExactFacts.sign_zero, Qcplus_0_l, (ExactFacts.sign_pos d Hd).
    reflexivity.
  - reflexivity.
Qed.

(** C8, as the code has it.  In binary64 and in exact arithmetic alike, an
    animation with duration 0 that has not been advanced yet completes in
    the first update whose frame time is positive: its progress is 1, the
    value written is the terminal one, it leaves the queue and its closure
    is invoked once. *)
Theorem zero_duration_completes_on_positive_frame :
  completes_at_once Float64.number /\ completes_at_once Exact.number.
Proof.
  split; apply clamped_completes_at_once.
  - exact Float64Facts.clamps_division_by_zero.
  - exact exact_clamps_division_by_zero.
Qed.


(* ================================================================= *)
(** ** The easing functions at 0 and 1 *)




(* ================================================================= *)
(** ** Concrete runs in binary64 *)

Section Binary64.
Local Existing Instance Float64.number.
Open Scope js_scope.

(** The scenario of the specification: two frames of 0.25 s on a fade of
    0.5 s with the identity easing. *)
Example opacity_scenario :
  let c1 := update (lit (1 # 4)) (fade_with linear) in
  let c2 := update (lit (1 # 4)) c1 in
  slot "opacity" c1 = Some (lit (1 # 2))
  /\ List.length (animations c1) = 1
  /\ calls (log c1) = []
  /\ slot "opacity" c2 = Some (lit 1)
  /\ animations c2 = []
  /\ calls (log c2) = [0].
Proof. vm_compute. repeat split; reflexivity. Qed.



(** C8 as stated does not hold at [deltaTime = 0]: 0/0 is NaN, NaN >= 1 is
    false, so the animation of duration 0 stays queued, its callback is not
    invoked, and the slot receives NaN instead of the terminal value 1. *)
Lemma zero_duration_zero_frame_does_not_complete :
  let c1 := update (lit 0) instant_fade in
  map progress_of (animations c1) = [PrimFloat.nan]
  /\ ids (animations c1) = [0]
  /\ calls (log c1) = []
  /\ slot "opacity" c1 = Some PrimFloat.nan
  /\ slot "opacity" c1 <> Some (lit 1).
Proof.
  vm_compute. repeat split; try reflexivity.
  intros H.
  apply (f_equal (fun o => match o with
                           | Some v => PrimFloat.eqb v v
                           | None => false
                           end)) in H.
  vm_compute in H. discriminate.
Qed.

End Binary64.

(* ================================================================= *)
(** ** The theorems at concrete cards *)

Section Instances64.
Local Existing Instance Float64.number.
Open Scope js_scope.

Lemma wf_dealt_card : wf dealt_card.
Proof.
  split; vm_compute.
  - repeat constructor; cbn; intuition discriminate.
  - repeat constructor.
Defined.


Lemma callbacks_enqueue_for_next_update_witness :
  wf dealt_card
  /\ callbacks_of (lit (4 # 10)) (animations dealt_card)
     = [(1, [CAnimate "positionZ" (lit 0 + lit 0 - Z_DROP_BOUNCE) (lit 0)
               (Z_DROP_DURATION * lit (2 # 10)) easeInOutCubic
               (Some (onAnimComplete None))])]
  /\ animations (update (lit (4 # 10)) dealt_card)
     = kept_of (lit (4 # 10)) (animations dealt_card)
       ++ [ {| aid := 2; property := "positionZ";
               from := lit 0 + lit 0 - Z_DROP_BOUNCE; to := lit 0;
               duration := Z_DROP_DURATION * lit (2 # 10);
               easing := easeInOutCubic; elapsed := lit 0;
               onComplete := Some (onAnimComplete None);
               isFlipAnimation := false |} ].
Proof.
  split; [exact wf_dealt_card|].
  assert (H : callbacks_of (lit (4 # 10)) (animations dealt_card)
              = [(1, [CAnimate "positionZ" (lit 0 + lit 0 - Z_DROP_BOUNCE)
                        (lit 0) (Z_DROP_DURATION * lit (2 # 10))
                        easeInOutCubic (Some (onAnimComplete None))])])
    by reflexivity.
  split; [exact H|].
  destruct (callbacks_enqueue_for_next_update (lit (4 # 10)) dealt_card
              wf_dealt_card) as (_ & _ & Hchain).
  exact (Hchain _ _ _ _ _ _ _ H).
Defined.

Lemma wf_fade : wf (fade_with linear).
Proof.
  split; vm_compute.
  - repeat constructor; cbn; intuition discriminate.
  - repeat constructor.
Defined.

Lemma completed_animation_is_gone_witness :
  let c := fade_with linear in
  let c1 := update (lit (1 # 2)) c in
  let c2 := run_updates [lit (1 # 4); lit (1 # 4)] c1 in
  wf c /\ In fade_anim (animations c)
  /\ completes (advance (lit (1 # 2)) fade_anim) = true
  /\ ~ In 0 (ids (animations c1))
  /\ count_occ Nat.eq_dec (calls (new_events c c1)) 0 = 1
  /\ ~ In 0 (ids (animations c2))
  /\ forall e, In e (new_events c1 c2) -> event_id e <> Some 0.
Proof.
  cbv zeta.
  assert (Hin : In fade_anim (animations (fade_with linear)))
    by (left; reflexivity).
  assert (Hc : completes (advance (lit (1 # 2)) fade_anim) = true)
    by reflexivity.
  repeat split; [exact (proj1 wf_fade)|exact (proj2 wf_fade)|exact Hin| ..];
    apply (completed_animation_is_gone (lit (1 # 2))
             [lit (1 # 4); lit (1 # 4)] (fade_with linear) fade_anim
             wf_fade Hin Hc).
Defined.


Lemma setHover_gate_witness :
  hasFlipAnim flipping_card || isSliding flipping_card = true
  /\ setHover true flipping_card = flipping_card
  /\ hasFlipAnim scaling_card || isSliding scaling_card = false
  /\ ids (animations (setHover true scaling_card)) = [1; 2; 3]
  /\ map property (animations (setHover true scaling_card))
     = ["rotationX"; "scale"; "positionZ"]%string.
Proof.
  assert (H1 : hasFlipAnim flipping_card || isSliding flipping_card = true)
    by reflexivity.
  assert (H2 : hasFlipAnim scaling_card || isSliding scaling_card = false)
    by reflexivity.
  split; [exact H1|]. split; [exact (proj1 (setHover_gate true _) H1)|].
  split; [exact H2|].
  rewrite (proj2 (setHover_gate true scaling_card) H2).
  split; reflexivity.
Defined.

Lemma wf_instant_fade : wf instant_fade.
Proof.
  split; vm_compute.
  - repeat constructor; cbn; intuition discriminate.
  - repeat constructor.
Defined.

Lemma zero_duration_completes_on_positive_frame_witness :
  let c1 := update (lit (1 # 4)) instant_fade in
  nlt (lit 0) (lit (1 # 4)) = true
  /\ progress_of (advance (lit (1 # 4)) instant_anim) = lit 1
  /\ ~ In 0 (ids (animations c1))
  /\ count_occ Nat.eq_dec (calls (new_events instant_fade c1)) 0 = 1
  /\ In (EWrite 0 "opacity"
           (interpolate (lit 0) (lit 1) (easeOutCubic (lit 1))))
        (new_events instant_fade c1).
Proof.
  cbv zeta.
  destruct (proj1 zero_duration_completes_on_positive_frame
              (lit (1 # 4)) instant_fade instant_anim
              wf_instant_fade (or_introl eq_refl) eq_refl eq_refl eq_refl)
    as (H1 & H2 & H3 & H4).
  split; [reflexivity|]. split; [exact H1|]. split; [exact H2|].
  split; [exact H3|]. apply H4. reflexivity.
Defined.

End Instances64.

Section InstancesExact.
Local Existing Instance Exact.number.
Import Exact ExactFacts.
Local Open Scope Qc_scope.

Local Abbreviation fin q := (Fin q : @num Exact.number) (only parsing).
Local Abbreviation fins l := (map Fin l : list (@num Exact.number))
  (only parsing).





End InstancesExact.

(* ================================================================= *)
(** ** The queue of sets and the click *)

Section SetFacts.
Context {N : Number}.

Lemma random_below_spec (n : nat) (w : world) :
  fair w -> 0 < n ->
  fst (random_below n w) < n
  /\ snd (random_below n w) = set_drawn (S (drawn w)) w.
Proof.
  intros Hf Hn. unfold random_below, Math_random. cbn [fst snd].
  split; [|reflexivity].
  destruct (Hf (drawn w)) as [H0 H1].
  set (r := entropy w (drawn w)) in *.
  assert (Hlo : (0 <= Qfloor (r * inject_Z (Z.of_nat n)))%Z).
  { change 0%Z with (Qfloor 0). apply Qfloor_resp_le.
    apply Qmult_le_0_compat; [exact H0|].
    change 0%Q with (inject_Z 0). rewrite <- Zle_Qle. lia. }
  assert (Hhi : (Qfloor (r * inject_Z (Z.of_nat n)) < Z.of_nat n)%Z).
  { rewrite Zlt_Qlt.
    apply Qle_lt_trans with (r * inject_Z (Z.of_nat n))%Q;
      [apply Qfloor_le|].
    rewrite <- (Qmult_1_l (inject_Z (Z.of_nat n))) at 2.
    apply Qmult_lt_compat_r; [|exact H1].
    change 0%Q with (inject_Z 0). rewrite <- Zlt_Qlt. lia. }
  lia.
Qed.

Lemma fair_set_drawn (k : nat) (w : world) : fair w -> fair (set_drawn k w).
Proof. intros H. exact H. Qed.

(** *** Arrays *)

Lemma length_set_at {A : Type} (i : nat) (v : A) (l : list A) :
  List.length (set_at i v l) = List.length l.
Proof.
  revert i. induction l as [|x l IH]; intros [|i]; cbn; auto.
Qed.

Lemma nth_error_set_at_same {A : Type} (i : nat) (v : A) (l : list A) :
  i < List.length l -> nth_error (set_at i v l) i = Some v.
Proof.
  revert i. induction l as [|x l IH]; intros [|i] H; cbn in *;
    try lia; auto. apply IH. lia.
Qed.

Lemma nth_error_set_at_other {A : Type} (i j : nat) (v : A) (l : list A) :
  i <> j -> nth_error (set_at i v l) j = nth_error l j.
Proof.
  revert i j. induction l as [|x l IH]; intros [|i] [|j] H; cbn;
    try congruence; auto.
Qed.

Lemma count_set_at (i : nat) (v a x : Z) (l : list Z) :
  nth_error l i = Some a ->
  count_occ Z.eq_dec (set_at i v l) x + (if Z.eq_dec a x then 1 else 0)
  = count_occ Z.eq_dec l x + (if Z.eq_dec v x then 1 else 0).
Proof.
  revert i. induction l as [|y l IH]; intros [|i] H; cbn in H;
    try discriminate.
  - injection H as ->. cbn [set_at count_occ].
    destruct (Z.eq_dec a x), (Z.eq_dec v x); lia.
  - cbn [set_at count_occ]. specialize (IH i H).
    destruct (Z.eq_dec y x); lia.
Qed.

Lemma swap_permutation (i j : nat) (sets : list Z) :
  Permutation (swap i j sets) sets.
Proof.
  unfold swap.
  destruct (nth_error sets i) as [si|] eqn:Hi; [|reflexivity].
  destruct (nth_error sets j) as [sj|] eqn:Hj; [|reflexivity].
  apply (Permutation_count_occ Z.eq_dec). intros x.
  pose proof (count_set_at i sj si x sets Hi) as H1.
  assert (Hj' : nth_error (set_at i sj sets) j = Some sj).
  { destruct (Nat.eq_dec i j) as [->|Hne].
    - apply nth_error_set_at_same. apply nth_error_Some. congruence.
    - now rewrite nth_error_set_at_other. }
  pose proof (count_set_at j si sj x (set_at i sj sets) Hj') as H2.
  lia.
Qed.

Lemma set_drawn_frame (k : nat) (w : world) :
  availableSets (set_drawn k w) = availableSets w
  /\ lastShownSet (set_drawn k w) = lastShownSet w
  /\ cards (set_drawn k w) = cards w
  /\ slotStates (set_drawn k w) = slotStates w
  /\ showIntro (set_drawn k w) = showIntro w
  /\ timers (set_drawn k w) = timers w
  /\ entropy (set_drawn k w) = entropy w.
Proof. repeat split. Qed.

Lemma shuffle_spec (i : nat) (sets : list Z) (w : world) :
  Permutation (fst (shuffle i sets w)) sets
  /\ snd (shuffle i sets w) = set_drawn (drawn w + i) w.
Proof.
  revert sets w. induction i as [|i IH]; intros sets w; cbn [shuffle].
  - split; [reflexivity|]. rewrite Nat.add_0_r. destruct w; reflexivity.
  - unfold random_below, Math_random.
    destruct (IH (swap (S i)
                    (Z.to_nat
                       (Qfloor (entropy w (drawn w)
                                * inject_Z (Z.of_nat (S i + 1)))))
                    sets)
                 (set_drawn (S (drawn w)) w)) as [Hp Hw].
    split.
    + etransitivity; [exact Hp|]. apply swap_permutation.
    + rewrite Hw. cbn [set_drawn drawn availableSets lastShownSet cards
                         slotStates showIntro timers entropy].
      unfold set_drawn. cbn. f_equal. lia.
Qed.


Lemma option_eq_dec_Z (a b : option Z) : {a = b} + {a <> b}.
Proof. decide equality. apply Z.eq_dec. Qed.

Lemma refillSets_spec (w : world) :
  exists sets,
    Permutation sets [1; 2; 3; 4; 5; 6]%Z
    /\ refillSets w
       = set_availableSets (availableSets w ++ sets)
           (set_drawn (drawn w + 5) w).
Proof.
  unfold refillSets.
  set (l0 := map (fun i => Z.of_nat i + 1)%Z (seq 0 TOTAL_IMAGE_SETS)).
  destruct (shuffle_spec (List.length l0 - 1) l0 w) as [Hp Hw].
  destruct (shuffle (List.length l0 - 1) l0 w) as [sets w'].
  cbn [fst snd] in Hp, Hw. subst w'. exists sets. split; [exact Hp|].
  reflexivity.
Qed.

Lemma same_refl_false (x : Z) (last : option Z) :
  same (Some x) last = false <-> last <> Some x.
Proof.
  destruct last as [y|]; cbn; [|split; [discriminate|reflexivity]].
  rewrite Z.eqb_neq. split; congruence.
Qed.

Lemma same_head (x : Z) (last : option Z) :
  same (Some x) last = true <-> last = Some x.
Proof.
  destruct last as [y|]; cbn; [|split; discriminate].
  rewrite Z.eqb_eq. split; congruence.
Qed.

(** The head of the queue is shown when it differs from the set shown
    last. *)
Lemma getNextSet_head (x : Z) (rest : list Z) (w : world) :
  availableSets w = x :: rest -> lastShownSet w <> Some x ->
  getNextSet w
  = (Some x, set_lastShownSet (Some x) (set_availableSets rest w)).
Proof.
  intros Ha Hl. unfold getNextSet. rewrite Ha. cbn [List.length Nat.eqb].
  rewrite !Ha. cbn [nth_error]. apply same_refl_false in Hl. rewrite Hl.
  cbn [andb]. rewrite Ha. reflexivity.
Qed.

(** When the head is the set shown last, the next one is shown instead
    and the head stays in front of the queue. *)
Lemma getNextSet_skip (x y : Z) (rest : list Z) (w : world) :
  availableSets w = x :: y :: rest -> lastShownSet w = Some x -> x <> y ->
  getNextSet w
  = (Some y, set_lastShownSet (Some y) (set_availableSets (x :: rest) w)).
Proof.
  intros Ha Hl Hxy. unfold getNextSet. rewrite Ha.
  cbn [List.length Nat.eqb]. rewrite !Ha. cbn [List.length nth_error].
  assert (H1 : same (Some x) (lastShownSet w) = true) by now apply same_head.
  rewrite H1. cbn [andb Nat.ltb Nat.leb]. cbn [findIndex].
  rewrite H1. cbn [negb].
  assert (H2 : same (Some y) (lastShownSet w) = false).
  { apply same_refl_false. congruence. }
  rewrite H2. cbn [negb nth_error remove_at].
  reflexivity.
Qed.


Lemma getNextSet_refill (w : world) :
  availableSets w = [] -> getNextSet w = getNextSet (refillSets w).
Proof.
  intros Ha. destruct (refillSets_spec w) as (sets & Hp & Hw).
  assert (Hlen : List.length (availableSets (refillSets w)) = 6).
  { rewrite Hw, Ha. cbn. now rewrite (Permutation_length Hp). }
  unfold getNextSet at 2. rewrite Hlen. cbn [Nat.eqb].
  unfold getNextSet. rewrite Ha. reflexivity.
Qed.

(** One call on a queue that is not empty and holds no set twice. *)
Lemma getNextSet_nonempty (x : Z) (rest : list Z) (w : world) :
  availableSets w = x :: rest -> NoDup (x :: rest) ->
  (lastShownSet w = Some x -> rest <> []) ->
  exists v rest',
    getNextSet w
    = (Some v, set_lastShownSet (Some v) (set_availableSets rest' w))
    /\ lastShownSet w <> Some v
    /\ Permutation (v :: rest') (x :: rest).
Proof.
  intros Ha Hnd Hlast.
  destruct (option_eq_dec_Z (lastShownSet w) (Some x)) as [Heq|Hne].
  - destruct rest as [|y rest']; [now elim (Hlast Heq)|].
    assert (Hxy : x <> y).
    { inversion Hnd as [|? ? Hx _]. intros ->. apply Hx. now left. }
    exists y, (x :: rest'). split; [|split].
    + now apply getNextSet_skip.
    + congruence.
    + apply perm_swap.
  - exists x, rest. split; [|split].
    + now apply getNextSet_head.
    + exact Hne.
    + reflexivity.
Qed.

Lemma dealt_range (l : list Z) :
  Permutation l [1; 2; 3; 4; 5; 6]%Z ->
  NoDup l /\ Forall (fun s => 1 <= s <= 6)%Z l /\ List.length l = 6.
Proof.
  intros Hp. split; [|split].
  - apply (Permutation_NoDup (Permutation_sym Hp)).
    repeat constructor; cbn; intuition lia.
  - apply (Permutation_Forall (Permutation_sym Hp)).
    repeat constructor; lia.
  - apply (Permutation_length Hp).
Qed.


Lemma getNextSets_S (n : nat) (w : world) :
  getNextSets (S n) w
  = let '(s, w0) := getNextSet w in
    let '(l, w1) := getNextSets n w0 in (s :: l, w1).
Proof. reflexivity. Qed.

Lemma getNextSets_drain (l : list Z) :
  forall w : world,
    availableSets w = l -> NoDup l ->
    (forall s, lastShownSet w = Some s -> ~ In s l) ->
    fst (getNextSets (List.length l) w) = map Some l
    /\ availableSets (snd (getNextSets (List.length l) w)) = [].
Proof.
  induction l as [|x rest IH]; intros w Ha Hnd Hlast.
  - cbn. auto.
  - cbn [List.length]. rewrite getNextSets_S.
    rewrite (getNextSet_head x rest w Ha).
    2:{ intros H. apply (Hlast x H). now left. }
    inversion Hnd as [|? ? Hx Hnd']. subst.
    destruct (IH (set_lastShownSet (Some x) (set_availableSets rest w)))
      as [H1 H2]; auto.
    { intros s Hs. cbn in Hs. injection Hs as <-. exact Hx. }
    destruct (getNextSets (List.length rest)
                (set_lastShownSet (Some x) (set_availableSets rest w)))
      as [l' w'].
    cbn [fst snd] in *. split; [now rewrite H1|exact H2].
Qed.

(** X1.  With [Math.random] in [0, 1), which keeps the swaps of the
    shuffle within the array, [refillSets] keeps what is queued and
    appends the six sets, each once, in some order; it draws five random
    numbers and leaves [lastShownSet] alone.  On the state in which the
    program starts (an empty queue, [lastShownSet] -1) the result holds
    no set twice and not the set shown last. *)
Theorem refillSets_appends_a_permutation (w : world) :
  fair w ->
  exists sets,
    Permutation sets [1; 2; 3; 4; 5; 6]%Z
    /\ availableSets (refillSets w) = availableSets w ++ sets
    /\ lastShownSet (refillSets w) = lastShownSet w
    /\ drawn (refillSets w) = drawn w + 5
    /\ (availableSets w = [] -> lastShownSet w = Some (-1)%Z ->
        dealt (refillSets w)).
Proof.
  intros _. destruct (refillSets_spec w) as (sets & Hp & Hw).
  exists sets. rewrite Hw.
  split; [exact Hp|]. split; [reflexivity|]. split; [reflexivity|].
  split; [reflexivity|].
  intros Ha Hl. destruct (dealt_range sets Hp) as (Hnd & Hr & _).
  unfold dealt.
  cbn [availableSets set_availableSets lastShownSet set_drawn].
  rewrite Ha. cbn [app]. split; [exact Hnd|]. split; [exact Hr|].
  intros s Hs Hin. rewrite Hl in Hs. injection Hs as <-.
  apply (Permutation_in _ Hp) in Hin. cbn in Hin. intuition lia.
Qed.

Lemma getNextSet_fresh (w : world) :
  dealt w ->
  exists v,
    fst (getNextSet w) = Some v
    /\ (1 <= v <= 6)%Z
    /\ lastShownSet w <> Some v
    /\ lastShownSet (snd (getNextSet w)) = Some v
    /\ dealt (snd (getNextSet w)).
Proof.
  intros (Hnd & Hr & Hlast).
  assert (Hgen : forall w1 : world,
             NoDup (availableSets w1) ->
             Forall (fun s => 1 <= s <= 6)%Z (availableSets w1) ->
             availableSets w1 <> [] ->
             (forall x rest, availableSets w1 = x :: rest ->
                             lastShownSet w1 = Some x -> rest <> []) ->
             exists v,
               fst (getNextSet w1) = Some v
               /\ (1 <= v <= 6)%Z
               /\ lastShownSet w1 <> Some v
               /\ lastShownSet (snd (getNextSet w1)) = Some v
               /\ dealt (snd (getNextSet w1))).
  { intros w1 Hnd1 Hr1 Hne1 Hl1.
    destruct (availableSets w1) as [|x rest] eqn:Ha; [congruence|].
    destruct (getNextSet_nonempty x rest w1 Ha Hnd1 (Hl1 x rest eq_refl))
      as (v & rest' & Hg & Hv & Hp).
    rewrite Hg. cbn [fst snd]. exists v.
    pose proof (Permutation_NoDup (Permutation_sym Hp) Hnd1) as Hnd2.
    pose proof (Permutation_Forall (Permutation_sym Hp) Hr1) as Hr2.
    inversion Hnd2 as [|? ? Hv' Hnd3]. inversion Hr2 as [|? ? Hv2 Hr3].
    subst. repeat split; auto; try lia.
    intros s Hs. cbn in Hs. injection Hs as <-. exact Hv'. }
  destruct (availableSets w) as [|x rest] eqn:Ha.
  - rewrite (getNextSet_refill w Ha).
    destruct (refillSets_spec w) as (sets & Hp & Hw).
    destruct (dealt_range sets Hp) as (Hnd1 & Hr1 & Hlen).
    assert (Ha1 : availableSets (refillSets w) = sets).
    { rewrite Hw, Ha. reflexivity. }
    assert (Hl1 : lastShownSet (refillSets w) = lastShownSet w).
    { rewrite Hw. reflexivity. }
    destruct (Hgen (refillSets w)) as (v & H1 & H2 & H3 & H4 & H5).
    + now rewrite Ha1.
    + now rewrite Ha1.
    + rewrite Ha1. destruct sets; [discriminate|congruence].
    + rewrite Ha1. intros y rest' -> _ ->. discriminate.
    + exists v. rewrite Hl1 in H3. auto.
  - apply Hgen; rewrite ?Ha; auto; [discriminate|].
    intros y rest' Heq Hy. injection Heq as <- <-.
    exfalso. apply (Hlast x Hy). now left.
Qed.

Lemma getNextSet_frame (w : world) :
  cards (snd (getNextSet w)) = cards w
  /\ slotStates (snd (getNextSet w)) = slotStates w
  /\ showIntro (snd (getNextSet w)) = showIntro w
  /\ timers (snd (getNextSet w)) = timers w
  /\ entropy (snd (getNextSet w)) = entropy w.
Proof.
  unfold getNextSet. cbn [snd].
  set (w1 := if Nat.eqb (List.length (availableSets w)) 0
             then refillSets w else w).
  assert (H1 : cards w1 = cards w /\ slotStates w1 = slotStates w
               /\ showIntro w1 = showIntro w /\ timers w1 = timers w
               /\ entropy w1 = entropy w).
  { unfold w1. destruct (Nat.eqb _ 0); [|repeat split].
    destruct (refillSets_spec w) as (sets & _ & ->). repeat split. }
  destruct H1 as (<- & <- & <- & <- & <-).
  generalize w1. clear. intros w.
  destruct (same _ _ && _); [|repeat split].
  destruct (findIndex _ _) as [[|i]|]; try (repeat split; fail).
  destruct (nth_error (availableSets w) (S i)); repeat split.
Qed.

(** X2.  With [Math.random] in [0, 1), on a queue that holds no set
    twice and not the set shown last, [getNextSet] returns one of the six
    sets, different from the set it returned before, records it in
    [lastShownSet], and leaves a queue of the same kind. *)
Theorem getNextSet_never_repeats (w : world) :
  fair w -> dealt w ->
  exists v,
    fst (getNextSet w) = Some v
    /\ (1 <= v <= 6)%Z
    /\ lastShownSet w <> Some v
    /\ lastShownSet (snd (getNextSet w)) = Some v
    /\ dealt (snd (getNextSet w)).
Proof. intros _. apply getNextSet_fresh. Qed.

(** X3.  With [Math.random] in [0, 1), from an empty queue, six calls of
    [getNextSet] show each of the six sets once and leave the queue empty
    again. *)
Theorem getNextSets_round (w : world) :
  fair w -> availableSets w = [] ->
  exists l,
    fst (getNextSets 6 w) = map Some l
    /\ Permutation l [1; 2; 3; 4; 5; 6]%Z
    /\ availableSets (snd (getNextSets 6 w)) = [].
Proof.
  intros _ Ha. rewrite (getNextSets_S 5 w).
  rewrite (getNextSet_refill w Ha).
  destruct (refillSets_spec w) as (sets & Hp & Hw).
  destruct (dealt_range sets Hp) as (Hnd1 & Hr1 & Hlen).
  assert (Ha1 : availableSets (refillSets w) = sets).
  { rewrite Hw, Ha. reflexivity. }
  destruct sets as [|x rest]; [discriminate|].
  destruct (getNextSet_nonempty x rest (refillSets w) Ha1 Hnd1)
    as (v & rest' & Hg & Hv & Hp').
  { intros _ ->. discriminate. }
  rewrite Hg.
  pose proof (Permutation_NoDup (Permutation_sym Hp') Hnd1) as Hnd2.
  inversion Hnd2 as [|? ? Hv' Hnd3]. subst.
  assert (Hlen' : List.length rest' = 5).
  { apply Permutation_length in Hp'. cbn in Hp', Hlen. lia. }
  destruct (getNextSets_drain rest'
              (set_lastShownSet (Some v)
                 (set_availableSets rest' (refillSets w))))
    as [H1 H2]; auto.
  { intros s Hs. cbn in Hs. injection Hs as <-. exact Hv'. }
  rewrite Hlen' in H1, H2.
  destruct (getNextSets 5 _) as [l1 w1].
  cbn [fst snd] in *. exists (v :: rest').
  split; [cbn [map]; now rewrite H1|]. split; [|exact H2].
  etransitivity; [exact Hp'|exact Hp].
Qed.

End SetFacts.

Section ClickFacts.
Context {N : Number}.
Open Scope string_scope.

Lemma others_from (index k : nat) (states : list string) (i : nat) :
  In i (flat_map (fun m : option nat =>
                    match m with Some i => [i] | None => [] end)
          (map (fun '(i, state) =>
                  if (state =? "available") && negb (Nat.eqb i index)
                  then Some i else None)
               (combine (seq k (List.length states)) states)))
  <-> k <= i /\ nth_error states (i - k) = Some "available" /\ i <> index.
Proof.
  revert k. induction states as [|s states IH]; intro k.
  - cbn. split; [tauto|]. intros (_ & H & _).
    destruct (i - k); discriminate.
  - cbn [List.length seq combine map flat_map]. rewrite in_app_iff, IH.
    split.
    + intros [H|(Hk & Hn & Hi)].
      * destruct (s =? "available") eqn:Es;
          destruct (Nat.eqb k index) eqn:Ek; cbn in H; try tauto.
        destruct H as [<-|[]]. apply String.eqb_eq in Es.
        apply Nat.eqb_neq in Ek. rewrite Nat.sub_diag. cbn. subst s. auto.
      * split; [lia|]. split; [|exact Hi].
        replace (i - k) with (S (i - S k)) by lia. exact Hn.
    + intros (Hk & Hn & Hi).
      destruct (Nat.eq_dec i k) as [->|Hne].
      * left. rewrite Nat.sub_diag in Hn. cbn in Hn. injection Hn as ->.
        rewrite String.eqb_refl.
        apply Nat.eqb_neq in Hi. rewrite Hi. now left.
      * right. split; [lia|]. split; [|exact Hi].
        replace (i - k) with (S (i - S k)) in Hn by lia. exact Hn.
Qed.

Lemma otherAvailableIndices_spec (index : nat) (states : list string)
    (i : nat) :
  In i (otherAvailableIndices index states)
  <-> nth_error states i = Some "available" /\ i <> index.
Proof.
  unfold otherAvailableIndices. rewrite others_from, Nat.sub_0_r.
  split; [tauto|]. intros [H1 H2]. split; [lia|auto].
Qed.

(** X4.  A click on a card does nothing while the intro is shown, when
    the slot of the card is not available (or there is no such slot),
    and when no other slot is available. *)
Theorem handleCardClick_ignored (index : nat) (w : world) :
  showIntro w = true
  \/ nth_error (slotStates w) index <> Some "available"
  \/ (forall i, i <> index ->
                nth_error (slotStates w) i <> Some "available") ->
  handleCardClick index w = Some w.
Proof.
  intros H. unfold handleCardClick.
  destruct (showIntro w); [reflexivity|].
  destruct (nth_error (slotStates w) index) as [s|] eqn:Es;
    [|reflexivity].
  destruct (s =? "available") eqn:Ea; [|reflexivity].
  cbn [negb]. apply String.eqb_eq in Ea. subst s.
  destruct H as [H|[H|H]]; [discriminate|congruence|].
  destruct (otherAvailableIndices index (slotStates w)) as [|e l] eqn:Eo;
    [reflexivity|].
  exfalso.
  assert (He : In e (otherAvailableIndices index (slotStates w))).
  { rewrite Eo. now left. }
  apply otherAvailableIndices_spec in He. destruct He as [He1 He2].
  now apply (H e).
Qed.


Lemma handleCardClick_pair (index : nat) (w : world) :
  fair w -> dealt w ->
  List.length (cards w) = List.length (slotStates w) ->
  showIntro w = false ->
  nth_error (slotStates w) index = Some "available" ->
  (exists i, i <> index /\ nth_error (slotStates w) i = Some "available") ->
  exists (w' : world) (e : nat) (ideaCard execCard : card) (setNum : Z),
    handleCardClick index w = Some w'
    /\ e <> index
    /\ nth_error (slotStates w) e = Some "available"
    /\ nth_error (cards w) index = Some ideaCard
    /\ nth_error (cards w) e = Some execCard
    /\ slotStates w'
       = set_at e "busy" (set_at index "busy" (slotStates w))
    /\ cards w'
       = set_at e
           (setFaceTexture
              ("images/execution-" ++ show (Some setNum) ++ ".png")
              (setHover false (set_state "busy" execCard)))
           (set_at index
              (flip None
                 (setFaceTexture
                    ("images/idea-" ++ show (Some setNum) ++ ".png")
                    (setHover false (set_state "busy" ideaCard))))
              (cards w))
    /\ (1 <= setNum <= 6)%Z
    /\ lastShownSet w <> Some setNum
    /\ lastShownSet w' = Some setNum
    /\ dealt w'
    /\ timers w'
       = (timers w
          ++ [(nmul STAGGER_DELAY (lit 1000),
               TFlipExecution (Some setNum) e);
              (nmul (nadd (nadd STAGGER_DELAY FLIP_DURATION)
                       REVEAL_STAY_TIME) (lit 1000),
               TAnimateOutAndIn index e)])%list.
Proof.
  intros Hf Hd Hlen Hintro Hslot (i & Hi & Hav).
  unfold handleCardClick. rewrite Hintro, Hslot, String.eqb_refl.
  cbn [negb].
  set (others := otherAvailableIndices index (slotStates w)).
  assert (Hin : In i others).
  { apply otherAvailableIndices_spec. auto. }
  assert (Hpos : 0 < List.length others).
  { destruct others; [destruct Hin|cbn; lia]. }
  destruct (Nat.eqb (List.length others) 0) eqn:E0;
    [apply Nat.eqb_eq in E0; lia|].
  destruct (random_below_spec (List.length others) w Hf Hpos) as [Hp Hw].
  destruct (random_below (List.length others) w) as [pick w1].
  cbn [fst snd] in Hp, Hw. subst w1.
  destruct (nth_error others pick) as [e|] eqn:Ee;
    [|apply nth_error_None in Ee; lia].
  assert (He : In e others) by (eapply nth_error_In; eauto).
  apply otherAvailableIndices_spec in He. destruct He as [He1 He2].
  cbn [cards slotStates set_slotStates set_drawn availableSets
       lastShownSet showIntro timers entropy drawn].
  assert (Hci : index < List.length (cards w)).
  { rewrite Hlen. apply nth_error_Some. congruence. }
  assert (Hce : e < List.length (cards w)).
  { rewrite Hlen. apply nth_error_Some. congruence. }
  destruct (nth_error (cards w) index) as [ideaCard|] eqn:Ei;
    [|apply nth_error_None in Ei; lia].
  destruct (nth_error (cards w) e) as [execCard|] eqn:Ex;
    [|apply nth_error_None in Ex; lia].
  match goal with
  | |- context [getNextSet ?W] => set (W0 := W)
  end.
  destruct (getNextSet_fresh W0) as (v & H1 & H2 & H3 & H4 & H5);
    [exact Hd|].
  destruct (getNextSet W0) as [sn w2] eqn:Eg.
  cbn [fst snd] in H1, H4, H5. subst sn.
  destruct (getNextSet_frame W0) as (Fc & Fs & Fi & Ft & Fe).
  rewrite Eg in Fc, Fs, Fi, Ft, Fe. cbn [snd] in Fc, Fs, Fi, Ft, Fe.
  eexists _, e, ideaCard, execCard, v.
  split; [reflexivity|].
  cbn [cards slotStates set_slotStates set_drawn set_timers set_cards
       availableSets lastShownSet showIntro timers entropy drawn].
  rewrite Fc, Fs, Ft. unfold W0.
  cbn [cards slotStates set_slotStates set_drawn set_timers set_cards
       availableSets lastShownSet showIntro timers entropy drawn].
  rewrite <- app_assoc. cbn [app].
  repeat (split; [first [assumption | reflexivity | lia]|]).
  reflexivity.
Qed.


Lemma handleCardClick_busy (index : nat) (w : world) :
  nth_error (slotStates w) index <> Some "available" ->
  handleCardClick index w = Some w.
Proof.
  intros H. unfold handleCardClick.
  destruct (showIntro w); [reflexivity|].
  destruct (nth_error (slotStates w) index) as [s|] eqn:Es;
    [|reflexivity].
  destruct (s =? "available") eqn:Ea; [|reflexivity].
  apply String.eqb_eq in Ea. congruence.
Qed.

(** X21.  A card that is being revealed cannot be clicked again.  After
    a click that reveals a pair (under the conditions of X5), the slots
    of the two cards are busy and all other slots are as they were; a
    further click on either card changes nothing. *)
Theorem revealed_cards_ignore_clicks (index : nat) (w : world) :
  fair w -> dealt w ->
  List.length (cards w) = List.length (slotStates w) ->
  showIntro w = false ->
  nth_error (slotStates w) index = Some "available" ->
  (exists i, i <> index /\ nth_error (slotStates w) i = Some "available") ->
  exists (w' : world) (e : nat),
    handleCardClick index w = Some w'
    /\ e <> index
    /\ nth_error (slotStates w') index = Some "busy"
    /\ nth_error (slotStates w') e = Some "busy"
    /\ (forall i, i <> index -> i <> e ->
                  nth_error (slotStates w') i = nth_error (slotStates w) i)
    /\ handleCardClick index w' = Some w'
    /\ handleCardClick e w' = Some w'.
Proof.
  intros Hf Hd Hl Hi Ha Ho.
  destruct (handleCardClick_pair index w Hf Hd Hl Hi Ha Ho)
    as (w' & e & ic & ec & s & H1 & H2 & H3 & _ & _ & H6 & _).
  exists w', e.
  assert (Li : index < List.length (slotStates w))
    by (apply nth_error_Some; congruence).
  assert (Le : e < List.length (slotStates w))
    by (apply nth_error_Some; congruence).
  assert (Bi : nth_error (slotStates w') index = Some "busy").
  { rewrite H6, nth_error_set_at_other by exact H2.
    now apply nth_error_set_at_same. }
  assert (Be : nth_error (slotStates w') e = Some "busy").
  { rewrite H6. apply nth_error_set_at_same.
    now rewrite length_set_at. }
  split; [exact H1|]. split; [exact H2|]. split; [exact Bi|].
  split; [exact Be|]. split.
  - intros i Hi1 Hi2. rewrite H6.
    rewrite !nth_error_set_at_other by congruence. reflexivity.
  - split; apply handleCardClick_busy; congruence.
Qed.

End ClickFacts.

(* ================================================================= *)
(** ** Linear arithmetic over the canonical rationals *)

Lemma Qc_eq_Qeq (x y : Qc) : x = y -> (this x == this y)%Q.
Proof. intros ->. reflexivity. Qed.

Ltac qc_to_q :=
  repeat match goal with
         | H : @eq Qc _ _ |- _ => apply Qc_eq_Qeq in H
         end;
  try (apply Qc_is_canon);
  unfold Qcle, Qclt, Qcminus, Qcdiv in *;
  cbn [this Q2Qc Qcplus Qcmult Qcopp Qcinv] in *;
  repeat (rewrite ?Qred_correct in * ).

Ltac qc_lra := qc_to_q; lra.

(* ================================================================= *)
(** ** isSliding across an update *)

Section Sliding.
Context {N : Number}.

Lemma isSliding_write_slot (p : string) (v : num) (c : card) :
  isSliding (write_slot p v c) = isSliding c.
Proof.
  unfold write_slot, setOpacity.
  destruct c as [? ? ? ? ? ? ? ? ? ? ? ? ? ? ? ? ? ? m ? ?].
  repeat match goal with
         | |- context [String.eqb ?a ?b] => destruct (String.eqb a b)
         end; try reflexivity.
  cbn. destruct m; reflexivity.
Qed.

Lemma isSliding_apply (a : animation) (c : card) :
  isSliding (apply_animation a c) = isSliding c.
Proof.
  unfold apply_animation.
  destruct (recognized (property a)); [|apply isSliding_write_slot].
  transitivity (isSliding (write_slot (property a) (value_of a) c));
    [|apply isSliding_write_slot].
  generalize (write_slot (property a) (value_of a) c). intros c0.
  destruct c0. reflexivity.
Qed.

Lemma isSliding_written (dt : num) (q : list animation) (c : card) :
  isSliding (written dt q c) = isSliding c.
Proof.
  unfold written. generalize (advanced dt q). intros l. revert c.
  induction l as [|a l IH]; intro c; cbn [fold_left]; auto.
  rewrite IH. apply isSliding_apply.
Qed.

Lemma isSliding_after_pass (dt : num) (c : card) :
  isSliding (after_pass dt c) = isSliding c.
Proof.
  unfold after_pass.
  transitivity (isSliding (written dt (animations c) c));
    [|apply isSliding_written].
  generalize (written dt (animations c) c). intros c0.
  destruct c0. reflexivity.
Qed.

Lemma isSliding_update (dt : num) (c : card) :
  isSliding (update dt c) = isSliding (after_callbacks dt c).
Proof.
  rewrite update_stages. generalize (after_callbacks dt c). intros c0.
  unfold hover_tilt.
  destruct (isHovered c0 && negb (hasFlipAnim c0));
    [destruct c0; reflexivity|].
  destruct (negb (isHovered c0)); destruct c0; reflexivity.
Qed.


Lemma run_updates_app (l1 l2 : list num) (c : card) :
  run_updates (l1 ++ l2) c = run_updates l2 (run_updates l1 c).
Proof. unfold run_updates. apply fold_left_app. Qed.

Local Open Scope string_scope.

Lemma slideOut_eq (k : option callback) (c : card) :
  slideOut k c
  = let c1 := push_log (EExtern "SoundManager.playSlide")
                (set_isSliding true c) in
    let col := Nat.modulo (index c) GRID_COLS in
    let row := Nat.div (index c) GRID_COLS in
    if Nat.eqb col 0 then
      animate "positionX" (x3 (currentPosition c))
        (nsub (x3 (basePosition c)) (lit 15)) SLIDE_DURATION easeInCubic
        (Some (onAnimComplete k)) c1
    else if Nat.eqb col (GRID_COLS - 1) then
      animate "positionX" (x3 (currentPosition c))
        (nadd (x3 (basePosition c)) (lit 15)) SLIDE_DURATION easeInCubic
        (Some (onAnimComplete k)) c1
    else if Nat.eqb row 0 then
      animate "positionY" (y3 (currentPosition c))
        (nadd (y3 (basePosition c)) (lit 15)) SLIDE_DURATION easeInCubic
        (Some (onAnimComplete k)) c1
    else
      animate "positionY" (y3 (currentPosition c))
        (nsub (y3 (basePosition c)) (lit 15)) SLIDE_DURATION easeInCubic
        (Some (onAnimComplete k)) c1.
Proof. destruct c. reflexivity. Qed.

End Sliding.

(* ================================================================= *)
(** ** Calm closures *)

Section Calm.
Context {N : Number}.












End Calm.

(* ================================================================= *)
(** ** One animation in company *)

Section Company.
Local Existing Instance Exact.number.
Import Exact ExactFacts.
Local Open Scope Qc_scope.

Local Abbreviation fin q := (Fin q : @num Exact.number) (only parsing).
Local Abbreviation fins l := (map Fin l : list (@num Exact.number))
  (only parsing).











End Company.

(* ================================================================= *)
(** ** Where the animations of the card land *)

Section Landings.
Local Existing Instance Exact.number.
Import Exact ExactFacts.
Local Open Scope string_scope.
Local Open Scope list_scope.
Local Open Scope Qc_scope.

Local Abbreviation fin q := (Fin q : @num Exact.number) (only parsing).
Local Abbreviation fins l := (map Fin l : list (@num Exact.number))
  (only parsing).

















End Landings.

(* ================================================================= *)
(** ** Frames that complete nothing *)

Section Frames.
Context {N : Number}.

Lemma kept_all (dt : num) (q : list animation) :
  Forall (fun a => completes (advance dt a) = false) q ->
  kept_of dt q = advanced dt q /\ callbacks_of dt q = [].
Proof.
  unfold kept_of, callbacks_of, advanced.
  induction 1 as [|a q Ha _ [IH1 IH2]]; cbn [map filter flat_map]; auto.
  rewrite Ha. cbn [negb]. rewrite IH1. auto.
Qed.

(** A frame in which no animation completes. *)
Lemma update_no_completion (dt : num) (c : card) :
  Forall (fun a => completes (advance dt a) = false) (animations c) ->
  animations (update dt c) = advanced dt (animations c)
  /\ nextId (update dt c) = nextId c
  /\ isSliding (update dt c) = isSliding c
  /\ new_events c (update dt c)
     = flat_map write_events (advanced dt (animations c))
  /\ slots (update dt c) = slots (written dt (animations c) c).
Proof.
  intros H.
  destruct (kept_all dt _ H) as [Hk Hc].
  destruct (update_frame dt c) as (Ha & Hn & _ & Hs).
  rewrite Ha, Hn, Hs, isSliding_update, update_new_events.
  unfold after_callbacks. rewrite Hc. cbn [fold_left flat_map].
  destruct (after_pass_frame dt c) as (Ha' & Hn' & _ & Hs').
  rewrite Ha', Hn', Hs', Hk, isSliding_after_pass, app_nil_r. auto.
Qed.

Lemma new_events_run_app (l1 l2 : list num) (c : card) :
  new_events c (run_updates (l1 ++ l2) c)
  = new_events c (run_updates l1 c)
    ++ new_events (run_updates l1 c) (run_updates l2 (run_updates l1 c)).
Proof.
  apply new_events_app. rewrite run_updates_app.
  rewrite run_updates_log at 1. rewrite (run_updates_log l1 c) at 1.
  now rewrite <- app_assoc.
Qed.


End Frames.

(* ================================================================= *)
(** ** The two legs of slideIn *)

Section SlideIn.
Local Existing Instance Exact.number.
Import Exact ExactFacts.
Local Open Scope string_scope.
Local Open Scope list_scope.
Local Open Scope Qc_scope.

Local Abbreviation fin q := (Fin q : @num Exact.number) (only parsing).
Local Abbreviation fins l := (map Fin l : list (@num Exact.number))
  (only parsing).
Local Abbreviation T := (Q2Qc (5 # 10)) (only parsing).
Local Abbreviation T1 := (Q2Qc (5 # 10) * Q2Qc (8 # 10)) (only parsing).
Local Abbreviation T2 := (Q2Qc (5 # 10) * Q2Qc (2 # 10)) (only parsing).













End SlideIn.

(* ================================================================= *)
(** ** The hover state across the operations of the card *)

Section HoverState.
Context {N : Number}.







Section Invariant.
Variable P : vec2 * vec2 * bool -> Prop.
Hypothesis Pzero : P (vec2_0, vec2_0, false).



End Invariant.


End HoverState.

(* ================================================================= *)
(** ** The tilt stays within MAX_TILT *)

Section Tilt.
Local Existing Instance Exact.number.
Import Exact ExactFacts.
Local Open Scope Qc_scope.

Local Abbreviation fin q := (Fin q : @num Exact.number) (only parsing).


Lemma within_weaken (m m' : Qc) (v : vec2) :
  m <= m' -> within m v -> within m' v.
Proof.
  intros H (x & y & -> & H1 & H2 & H3 & H4). exists x, y.
  split; [reflexivity|]. repeat split; qc_lra.
Qed.














End Tilt.

(* ================================================================= *)
(** ** reset and the queue; opacity and the materials *)

Section ResetAndOpacity.
Context {N : Number}.



Lemma in_sync_setOpacity (v : num) (c : card) : in_sync (setOpacity v c).
Proof.
  destruct c as [? ? ? ? ? ? ? ? ? ? ? ? ? ? ? ? ? ? m ? ?].
  unfold in_sync, setOpacity. cbn. destruct m; cbn; auto.
Qed.

Lemma in_sync_ext (c c' : card) :
  materials c' = materials c -> currentOpacity c' = currentOpacity c ->
  in_sync c -> in_sync c'.
Proof. unfold in_sync. now intros -> ->. Qed.

Lemma in_sync_write_slot (p : string) (v : num) (c : card) :
  in_sync c -> in_sync (write_slot p v c).
Proof.
  intros H. unfold write_slot.
  repeat match goal with
         | |- context [String.eqb ?a ?b] => destruct (String.eqb a b)
         end;
    try (apply in_sync_setOpacity);
    try (apply (in_sync_ext c); [destruct c; reflexivity..|exact H]).
Qed.

Lemma in_sync_push_log (e : event) (c : card) :
  in_sync c -> in_sync (push_log e c).
Proof. apply in_sync_ext; destruct c; reflexivity. Qed.

Lemma in_sync_apply (a : animation) (c : card) :
  in_sync c -> in_sync (apply_animation a c).
Proof.
  intros H. unfold apply_animation.
  destruct (recognized (property a)); [apply in_sync_push_log|];
    now apply in_sync_write_slot.
Qed.

Lemma in_sync_animate p f t d e k (c : card) :
  in_sync c -> in_sync (animate p f t d e k c).
Proof. apply in_sync_ext; destruct c; reflexivity. Qed.

Lemma in_sync_slideIn (k : option callback) (zOffset : num) (c : card) :
  in_sync (slideIn k zOffset c).
Proof.
  destruct c as [? ? ? ? ? ? ? ? ? ? ? ? ? ? ? ? ? ? m ? ?].
  unfold in_sync, slideIn, setOpacity, animate, enqueue, push_log. cbn.
  destruct m; cbn; auto.
Qed.

Lemma in_sync_reset (c : card) : in_sync (reset c).
Proof.
  destruct c as [? ? ? ? ? ? ? ? ? ? ? ? ? ? ? ? ? ? m ? ?].
  unfold in_sync, reset, setOpacity, push_log. cbn.
  destruct m; cbn; auto.
Qed.

Lemma in_sync_run_cmd (c : card) (k : cmd) :
  in_sync c -> in_sync (run_cmd c k).
Proof.
  intros H. destruct k; cbn [run_cmd].
  - apply (in_sync_ext c); [destruct c; reflexivity..|exact H].
  - now apply in_sync_animate.
  - apply in_sync_slideIn.
  - apply in_sync_reset.
  - apply in_sync_setOpacity.
  - apply (in_sync_ext c); [destruct c; reflexivity..|exact H].
  - apply (in_sync_ext c); [destruct c; reflexivity..|exact H].
  - now apply in_sync_push_log.
Qed.

Lemma in_sync_update (dt : num) (c : card) :
  in_sync c -> in_sync (update dt c).
Proof.
  intros H. rewrite update_eq.
  assert (Hw : in_sync (written dt (animations c) c)).
  { unfold written. generalize (advanced dt (animations c)). intros l.
    revert c H. induction l as [|a l IH]; intros c H; cbn [fold_left]; auto.
    apply IH. now apply in_sync_apply. }
  set (c1 := set_animations (kept_of dt (animations c))
               (written dt (animations c) c)).
  assert (H1 : in_sync c1).
  { apply (in_sync_ext (written dt (animations c) c)); [| |exact Hw];
      unfold c1; generalize (written dt (animations c) c); intros c0;
      destruct c0; reflexivity. }
  assert (H2 : in_sync (fold_left invoke (callbacks_of dt (animations c))
                          c1)).
  { revert H1. generalize c1.
    induction (callbacks_of dt (animations c)) as [|cb cbs IH];
      intros c0 H0; cbn [fold_left]; auto.
    apply IH. unfold invoke, run_callback.
    apply in_sync_push_log with (e := ECall (fst cb)) in H0. revert H0.
    generalize (push_log (ECall (fst cb)) c0).
    induction (snd cb) as [|x k IHk]; intros c2 H2; cbn [fold_left]; auto.
    apply IHk. now apply in_sync_run_cmd. }
  revert H2. generalize (fold_left invoke (callbacks_of dt (animations c))
                           c1). intros c2 H2.
  apply (in_sync_ext (hover_tilt c2)).
  - generalize (hover_tilt c2). intros c3. destruct c3. reflexivity.
  - generalize (hover_tilt c2). intros c3. destruct c3. reflexivity.
  - unfold hover_tilt.
    destruct (isHovered c2 && negb (hasFlipAnim c2)).
    + apply (in_sync_ext c2); [destruct c2; reflexivity..|exact H2].
    + destruct (negb (isHovered c2)); [|exact H2].
      apply (in_sync_ext c2); [destruct c2; reflexivity..|exact H2].
Qed.

Lemma in_sync_perform (c : card) (m : call) :
  in_sync c -> m <> CreateMesh -> in_sync (perform c m).
Proof.
  intros H Hm.
  destruct m as [| p f t d ez k | dt | hovered | lx ly | k | | k | k zo
                 | v | x y z]; cbn [perform].
  - congruence.
  - now apply in_sync_animate.
  - now apply in_sync_update.
  - unfold setHover. destruct (hasFlipAnim c || isSliding c); [exact H|].
    destruct hovered;
      (apply (in_sync_ext c); [destruct c; reflexivity..|exact H]).
  - unfold updateHoverTilt. destruct (negb (isHovered c)); [exact H|].
    apply (in_sync_ext c); [destruct c; reflexivity..|exact H].
  - apply (in_sync_ext c); [destruct c; reflexivity..|exact H].
  - apply in_sync_reset.
  - rewrite slideOut_eq. cbv zeta.
    repeat match goal with
           | |- context [Nat.eqb ?x ?y] => destruct (Nat.eqb x y)
           end;
      (apply (in_sync_ext c); [destruct c; reflexivity..|exact H]).
  - apply in_sync_slideIn.
  - apply in_sync_setOpacity.
  - apply (in_sync_ext c); [destruct c; reflexivity..|exact H].
Qed.

(** X15.  Opacity and materials stay in step.  After [setOpacity] the
    three materials, if they exist, have the opacity of the card; and
    every call other than [createMesh], which installs new materials,
    keeps it so, whatever the closures of the queue do. *)
Theorem opacity_stays_in_sync :
  (forall (v : num) (c : card), in_sync (setOpacity v c))
  /\ (forall (c : card) (m : call),
        in_sync c -> m <> CreateMesh -> in_sync (perform c m)).
Proof. split; [apply in_sync_setOpacity|apply in_sync_perform]. Qed.

End ResetAndOpacity.

(* ================================================================= *)
(** ** A frame time that is not a number *)

Section Stall.
Context {N : Number}.
Variable nan : num.
Hypothesis Hnan : absorbing nan.

Lemma poisoned_does_not_complete (dt : num) (a : animation) :
  elapsed a = nan \/ dt = nan -> completes (advance dt a) = false.
Proof.
  destruct Hnan as (H1 & H2 & H3 & H4 & H5). intros H.
  unfold completes, progress_of. cbn [advance set_elapsed elapsed duration].
  assert (E : nadd (elapsed a) dt = nan).
  { destruct H as [-> | ->]; auto. }
  now rewrite E, H3, H4.
Qed.

Lemma poisoned_update (dt : num) (c : card) :
  Forall (fun a => elapsed a = nan) (animations c) \/ dt = nan ->
  ids (animations (update dt c)) = ids (animations c)
  /\ Forall (fun a => elapsed a = nan) (animations (update dt c))
  /\ calls (new_events c (update dt c)) = [].
Proof.
  intros H.
  assert (Hno : Forall (fun a => completes (advance dt a) = false)
                  (animations c)).
  { apply Forall_forall. intros a Ha. apply poisoned_does_not_complete.
    destruct H as [H|H]; [left|now right].
    rewrite Forall_forall in H. now apply H. }
  destruct (update_no_completion dt c Hno) as (Ha & _ & _ & He & _).
  rewrite Ha, He. split; [apply ids_advanced|]. split.
  - apply Forall_forall. intros a Hin. unfold advanced in Hin.
    apply in_map_iff in Hin as (a0 & <- & Hin).
    cbn [advance set_elapsed elapsed].
    destruct Hnan as (H1 & H2 & _).
    destruct H as [H| ->]; [|apply H1].
    rewrite Forall_forall in H. rewrite (H a0 Hin). apply H2.
  - apply calls_writes, write_events_are_writes.
Qed.

Lemma absorbing_stalls : stalls N nan.
Proof.
  intros c deltas. cbv zeta.
  destruct (poisoned_update nan c (or_intror eq_refl)) as (Hi & He & Hc).
  assert (Hev : new_events c (run_updates deltas (update nan c))
                = new_events c (update nan c)
                  ++ new_events (update nan c)
                       (run_updates deltas (update nan c)))
    by apply (run_updates_cons_events nan deltas c).
  rewrite Hev, calls_app, Hc. cbn [app]. rewrite <- Hi. clear Hev Hc Hi.
  revert He. generalize (update nan c). clear c.
  induction deltas as [|dt deltas IH]; intros c He.
  - change (run_updates [] c) with c. unfold new_events.
    rewrite skipn_all. auto.
  - destruct (poisoned_update dt c (or_introl He)) as (Hi & He1 & Hc).
    destruct (IH (update dt c) He1) as (H1 & H2 & H3).
    rewrite run_updates_cons_events, calls_app, Hc, H3.
    change (run_updates (dt :: deltas) c)
      with (run_updates deltas (update dt c)).
    rewrite H1, Hi. auto.
Qed.

End Stall.

Lemma float_nan_absorbing : @absorbing Float64.number PrimFloat.nan.
Proof.
  assert (Hadd : forall x, PrimFloat.add x PrimFloat.nan = PrimFloat.nan).
  { intros x. apply Prim2SF_inj. rewrite FloatAxioms.add_spec.
    change (Prim2SF PrimFloat.nan) with S754_nan.
    destruct (Prim2SF x) as [s|s| |s m e]; reflexivity. }
  assert (Hadd' : forall x, PrimFloat.add PrimFloat.nan x = PrimFloat.nan).
  { intros x. apply Prim2SF_inj. rewrite FloatAxioms.add_spec.
    change (Prim2SF PrimFloat.nan) with S754_nan. reflexivity. }
  assert (Hdiv : forall x, PrimFloat.div PrimFloat.nan x = PrimFloat.nan).
  { intros x. apply Prim2SF_inj. rewrite FloatAxioms.div_spec.
    change (Prim2SF PrimFloat.nan) with S754_nan. reflexivity. }
  repeat split; auto.
Qed.

Lemma exact_nan_absorbing : @absorbing Exact.number Exact.NaN.
Proof.
  repeat split; try reflexivity; intros x; destruct x; reflexivity.
Qed.

(** X16.  A frame time that is not a number stalls the queue.  After
    [update(NaN)] every queued animation has the elapsed time NaN, and no
    later update, whatever its frame time, completes one of them, removes
    it from the queue or invokes a closure; in binary64 and over the
    exact numbers. *)
Theorem NaN_frame_stalls_the_queue :
  stalls Float64.number PrimFloat.nan /\ stalls Exact.number Exact.NaN.
Proof.
  split.
  - apply absorbing_stalls, float_nan_absorbing.
  - apply absorbing_stalls, exact_nan_absorbing.
Qed.

(* ================================================================= *)
(** ** The animation loop *)

Section Loop.
Context {N : Number}.





End Loop.

Section LoopExact.
Local Existing Instance Exact.number.
Import Exact ExactFacts.
Local Open Scope Qc_scope.

Local Abbreviation fin q := (Fin q : @num Exact.number) (only parsing).
Local Abbreviation fins l := (map Fin l : list (@num Exact.number))
  (only parsing).






(** *** The background *)







End LoopExact.

(* ================================================================= *)
(** ** The grid *)

Section Grid.
Local Existing Instance Exact.number.
Import Exact ExactFacts.
Local Open Scope Qc_scope.

Local Abbreviation fin q := (Fin q : @num Exact.number) (only parsing).

Lemma createCards_cards (w : world) :
  cards w = [] ->
  cards (createCards w) = cards (createCards (set_cards [] w)).
Proof. intros H. destruct w. cbn in H. subst. reflexivity. Qed.







End Grid.

(* ================================================================= *)
(** ** What a drop leaves alone *)

Section Bearing.
Context {N : Number}.
Local Open Scope string_scope.
Local Open Scope list_scope.
























End Bearing.

(* ================================================================= *)
(** ** A card comes back *)

Section ComingBack.
Local Existing Instance Exact.number.
Import Exact ExactFacts.
Local Open Scope string_scope.
Local Open Scope list_scope.
Local Open Scope Qc_scope.

Local Abbreviation fin q := (Fin q : @num Exact.number) (only parsing).
Local Abbreviation fins l := (map Fin l : list (@num Exact.number))
  (only parsing).





End ComingBack.

(* ================================================================= *)
(** ** Concrete games *)

Section GameInstances.
Local Existing Instance Exact.number.
Import Exact ExactFacts.
Local Open Scope string_scope.
Local Open Scope list_scope.

Lemma fair_dice (w : world) : entropy w = dice -> fair w.
Proof.
  intros H k. rewrite H. unfold dice, Qle, Qlt. cbn [Qnum Qden].
  pose proof (Nat.mod_upper_bound (7 * k + 3) 10 ltac:(discriminate)).
  lia.
Defined.

Lemma dealt_empty (w : world) : availableSets w = [] -> dealt w.
Proof.
  intros H. unfold dealt. rewrite H.
  split; [constructor|split; [constructor|intros s _ []]].
Defined.

Lemma refillSets_appends_a_permutation_witness :
  exists sets,
    Permutation sets [1; 2; 3; 4; 5; 6]%Z
    /\ availableSets (refillSets lobby) = availableSets lobby ++ sets
    /\ lastShownSet (refillSets lobby) = lastShownSet lobby
    /\ drawn (refillSets lobby) = drawn lobby + 5
    /\ (availableSets lobby = [] -> lastShownSet lobby = Some (-1)%Z ->
        dealt (refillSets lobby)).
Proof.
  apply (refillSets_appends_a_permutation lobby).
  apply fair_dice. reflexivity.
Defined.

Lemma getNextSet_never_repeats_witness :
  exists v,
    fst (getNextSet lobby) = Some v
    /\ (1 <= v <= 6)%Z
    /\ lastShownSet lobby <> Some v
    /\ lastShownSet (snd (getNextSet lobby)) = Some v
    /\ dealt (snd (getNextSet lobby)).
Proof.
  apply (getNextSet_never_repeats lobby).
  - apply fair_dice. reflexivity.
  - apply dealt_empty. reflexivity.
Defined.

Lemma getNextSets_round_witness :
  exists l,
    fst (getNextSets 6 lobby) = map Some l
    /\ Permutation l [1; 2; 3; 4; 5; 6]%Z
    /\ availableSets (snd (getNextSets 6 lobby)) = [].
Proof.
  apply (getNextSets_round lobby).
  - apply fair_dice. reflexivity.
  - reflexivity.
Defined.

Lemma handleCardClick_ignored_witness :
  handleCardClick 8 lobby = Some lobby.
Proof.
  apply (handleCardClick_ignored 8 lobby).
  right. left. discriminate.
Defined.


Lemma revealed_cards_ignore_clicks_witness :
  exists (w' : world) (e : nat),
    handleCardClick 0 lobby = Some w'
    /\ e <> 0
    /\ nth_error (slotStates w') 0 = Some "busy"
    /\ nth_error (slotStates w') e = Some "busy"
    /\ (forall i, i <> 0 -> i <> e ->
                  nth_error (slotStates w') i
                  = nth_error (slotStates lobby) i)
    /\ handleCardClick 0 w' = Some w'
    /\ handleCardClick e w' = Some w'.
Proof.
  apply (revealed_cards_ignore_clicks 0 lobby).
  - apply fair_dice. reflexivity.
  - apply dealt_empty. reflexivity.
  - reflexivity.
  - reflexivity.
  - reflexivity.
  - exists 1. split; [discriminate|reflexivity].
Defined.

End GameInstances.

(* ================================================================= *)
(** ** Concrete cards *)

Section CardInstances.
Local Existing Instance Exact.number.
Import Exact ExactFacts.
Local Open Scope string_scope.
Local Open Scope list_scope.
Local Open Scope Qc_scope.

Local Abbreviation fin q := (Fin q : @num Exact.number) (only parsing).
Local Abbreviation fins l := (map Fin l : list (@num Exact.number))
  (only parsing).












Lemma opacity_stays_in_sync_witness :
  in_sync (perform (setOpacity (fin half) (createMesh (new_Card 0)))
             (Flip None)).
Proof.
  destruct (@opacity_stays_in_sync Exact.number) as (H1 & H2).
  apply H2; [apply H1|discriminate].
Defined.


End CardInstances.

(* ================================================================= *)
(** ** Concrete frames *)

Section LoopInstances.
Local Existing Instance Exact.number.
Import Exact ExactFacts.
Local Open Scope string_scope.
Local Open Scope list_scope.
Local Open Scope Qc_scope.

Local Abbreviation fin q := (Fin q : @num Exact.number) (only parsing).
Local Abbreviation fins l := (map Fin l : list (@num Exact.number))
  (only parsing).




End LoopInstances.
